(** * PL300 quiz application: results screen and progress store

    A shallow embedding of
    - [src/components/ResultsScreen.js]: the statistics computed while
      rendering, the one-shot processing effect guarded by the
      [processedQuizId] ref, and [toggleQuestion];
    - the [progressService.js] functions quoted in the storage analysis
      report ([saveProgress], [generateDataHash], [performSave],
      [ensureDB]) together with the variants the report recommends;
    - the schema migrator, which the repository files do not contain and
      which is modelled from its specification.

    JavaScript objects used as maps are [gmap]s, [Set]s are [gset]s, the
    template literals and [JSON.stringify] build [string]s, numbers that
    the code only uses as integers are [Z], [N] or [nat]. *)

From stdpp Require Import gmap strings list fin_maps pretty sorting.
From Stdlib Require Import ZArith Lia Ascii.


(* ===================================================================== *)
(** * ResultsScreen.js *)
(* ===================================================================== *)

Module ResultsScreen.

(** A question as the component reads it. [subdominio], [formato] and
    [trampaComun] are optional in the data set; the component replaces a
    missing one by a default. *)
Record Question := {
  id : string;
  respuestaCorrecta : Z;
  dominio : string;
  nivel : string;
  subdominio : option string;
  formato : option string;
  trampaComun : option string
}.

(** [results]: [answers] is the object the quiz screen fills with
    [answers[index] = chosenOption]; an index without an own property reads
    as [undefined].  [timeElapsed] is a whole number of seconds. *)
Record Results := {
  questions : list Question;
  answers : gmap nat Z;
  timeElapsed : N;
  configDomain : option string
}.

(** ** Statistics (the render body, "Calcular estadísticas") *)

(** One iteration of
    [questions.forEach((question, index) => { if (answers[index] !== undefined) ... })]
    on the pair of counters [(correctAnswers, incorrectAnswers)]. *)
Definition countStep (ans : gmap nat Z) (question : Question) (index : nat)
    (acc : nat * nat) : nat * nat :=
  match ans !! index with
  | Some a =>
      if bool_decide (a = respuestaCorrecta question)
      then (S acc.1, acc.2)
      else (acc.1, S acc.2)
  | None => acc
  end.

Fixpoint countLoop (ans : gmap nat Z) (qs : list Question) (index : nat)
    (acc : nat * nat) : nat * nat :=
  match qs with
  | [] => acc
  | question :: rest =>
      countLoop ans rest (S index) (countStep ans question index acc)
  end.

Record Stats := {
  totalQuestions : nat;
  answeredQuestions : nat;
  correctAnswers : nat;
  incorrectAnswers : nat;
  unanswered : Z
}.

(** [unanswered = totalQuestions - answeredQuestions] is a JavaScript
    subtraction: it goes negative when [answers] has more keys than there
    are questions, hence [Z]. *)
Definition computeStats (r : Results) : Stats :=
  let total := length (questions r) in
  let answered := size (answers r) in
  let counters := countLoop (answers r) (questions r) 0 (0, 0) in
  {| totalQuestions := total;
     answeredQuestions := answered;
     correctAnswers := counters.1;
     incorrectAnswers := counters.2;
     unanswered := Z.of_nat total - Z.of_nat answered |}.

(** ** toggleQuestion *)

(** [const newExpanded = new Set(expandedQuestions);
     if (newExpanded.has(index)) newExpanded.delete(index);
     else newExpanded.add(index);
     setExpandedQuestions(newExpanded);]
    The function maps the current state to the next one. *)
Definition toggleQuestion (expandedQuestions : gset nat) (index : nat)
    : gset nat :=
  let newExpanded := expandedQuestions in
  if decide (index ∈ newExpanded)
  then newExpanded ∖ {[index]}
  else newExpanded ∪ {[index]}.

(** ** The processing effect *)

(** What the effect hands to the progress context, in call order.  The
    context functions themselves live outside the component; the component
    state records the calls made so far. *)
Record Metadata := {
  domain : string;
  level : string;
  metaSubdominio : string;
  format : string;
  difficulty : string
}.

(** [results.timeElapsed / results.questions.length], kept as the exact
    quotient (numerator, denominator). *)
Definition TimeSpent : Type := N * nat.

Record QuestionDetail := {
  detailId : string;
  detailDomain : string;
  detailLevel : string;
  correct : bool;
  detailTimeSpent : TimeSpent
}.

Record QuizResultsData := {
  dataTotalQuestions : nat;
  dataCorrectAnswers : nat;
  totalTime : N;
  dataDomain : string;
  questionDetails : list QuestionDetail
}.

Inductive Call :=
  | RecordQuestionAttempt (questionId : string) (isCorrect : bool)
      (timeSpent : TimeSpent) (meta : Metadata)
  | SaveAnsweredQuestion (questionId : string)
  | UpdateProgressAfterQuiz (data : QuizResultsData)
  | DispatchProgressUpdated (questionsProcessed : nat)
  | ScheduleCheckAchievements.

(** [value || fallback] on an optional string: a missing or empty string is
    falsy. *)
Definition orDefault (value : option string) (fallback : string) : string :=
  match value with
  | Some s => if decide (s = "") then fallback else s
  | None => fallback
  end.

Definition truthy (value : option string) : bool :=
  match value with
  | Some s => bool_decide (s ≠ "")
  | None => false
  end.

(** [`${results.questions[0]?.id}_${results.timeElapsed}_${results.questions.length}`] *)
Definition quizIdOf (r : Results) : string :=
  match head (questions r) with
  | Some q => id q
  | None => "undefined"
  end +:+ "_" +:+ pretty (timeElapsed r) +:+ "_" +:+ pretty (length (questions r)).

Definition timeSpentOf (r : Results) : TimeSpent :=
  (timeElapsed r, length (questions r)).

(** Body of step 1, [results.questions.forEach((question, index) => ...)]:
    the calls made for one question. *)
Definition questionCalls (r : Results) (index : nat) (question : Question)
    : list Call :=
  match answers r !! index with
  | Some userAnswer =>
      [ RecordQuestionAttempt (id question)
          (bool_decide (userAnswer = respuestaCorrecta question))
          (timeSpentOf r)
          {| domain := dominio question;
             level := nivel question;
             metaSubdominio := orDefault (subdominio question) "otros";
             format := orDefault (formato question) "opcion-multiple";
             difficulty :=
               if truthy (trampaComun question) then "trick" else "normal" |};
        SaveAnsweredQuestion (id question) ]
  | None => []
  end.

Definition perQuestionCalls (r : Results) : list Call :=
  concat (imap (questionCalls r) (questions r)).

(** Step 2, [results.questions.map((question, index) => ({...}))]. *)
Definition questionDetailsOf (r : Results) : list QuestionDetail :=
  imap (fun index question =>
          {| detailId := id question;
             detailDomain := dominio question;
             detailLevel := nivel question;
             correct :=
               bool_decide (answers r !! index = Some (respuestaCorrecta question));
             detailTimeSpent := timeSpentOf r |})
       (questions r).

(** Step 3 filters [Object.keys(results.answers)] with
    [results.answers[index] === results.questions[index].respuestaCorrecta].
    For a key that is not a question index [results.questions[index]] is
    [undefined] and reading its property throws: [None]. *)
Definition keyIsCorrect (qs : list Question) (entry : nat * Z) : option bool :=
  question ← qs !! entry.1;
  Some (bool_decide (entry.2 = respuestaCorrecta question)).

Definition countCorrectKeys (r : Results) : option nat :=
  flags ← mapM (keyIsCorrect (questions r)) (map_to_list (answers r));
  Some (length (filter (fun b => b = true) flags)).

Definition quizResultsDataOf (r : Results) (nCorrect : nat) : QuizResultsData :=
  {| dataTotalQuestions := length (questions r);
     dataCorrectAnswers := nCorrect;
     totalTime := timeElapsed r;
     dataDomain := orDefault (configDomain r) "all";
     questionDetails := questionDetailsOf r |}.

(** The part of the component instance the effect reads and writes:
    [processedQuizId] is the [useRef(null)] cell, [hasProcessed] the state
    flag, [calls] the calls issued so far.  [unmounted] is set once the
    instance is gone: an error thrown inside an effect is caught by nothing
    in the component, React unmounts the tree it sits in, and the state
    and the ref of the instance are discarded with it. *)
Record Component := {
  processedQuizId : option string;
  hasProcessed : bool;
  calls : list Call;
  unmounted : bool
}.

Definition mount : Component :=
  {| processedQuizId := None; hasProcessed := false; calls := [];
     unmounted := false |}.

(** One run of the effect.  [None] stands for a [results] prop that fails
    the guard [results && results.questions && results.answers].  When
    step 3 throws, the calls of step 1 have been made and the instance is
    unmounted; an unmounted instance runs no effect. *)
Definition runEffect (st : Component) (results : option Results) : Component :=
  if unmounted st then st
  else
    match results with
    | None => st
    | Some r =>
        let quizId := quizIdOf r in
        if decide (processedQuizId st = Some quizId) then st
        else
          let marked :=
            {| processedQuizId := Some quizId;
               hasProcessed := true;
               calls := calls st ++ perQuestionCalls r;
               unmounted := false |} in
          match countCorrectKeys r with
          | None =>
              {| processedQuizId := None;
                 hasProcessed := false;
                 calls := calls marked;
                 unmounted := true |}
          | Some nCorrect =>
              {| processedQuizId := processedQuizId marked;
                 hasProcessed := hasProcessed marked;
                 calls := calls marked ++
                   [ UpdateProgressAfterQuiz (quizResultsDataOf r nCorrect);
                     DispatchProgressUpdated (length (questions r));
                     ScheduleCheckAchievements ];
                 unmounted := false |}
          end
    end.

(** The identifier under which a run of the effect looks a quiz up. *)
Definition effectId (results : option Results) : option string :=
  quizIdOf <$> results.

(** ** Statistics per domain and per level *)

(** One entry of [domainStats] or [levelStats]: [{ total, correct }]. *)
Record GroupStat := {
  groupTotal : nat;
  groupCorrect : nat
}.

(** The property names every plain object inherits from
    [Object.prototype]. *)
Definition objectPrototypeNames : list string :=
  [ "constructor"; "__defineGetter__"; "__defineSetter__"; "hasOwnProperty";
    "__lookupGetter__"; "__lookupSetter__"; "isPrototypeOf";
    "propertyIsEnumerable"; "toString"; "valueOf"; "__proto__";
    "toLocaleString" ].

(** One iteration of
    [questions.forEach((question, index) => { const domain = question.dominio;
       if (!domainStats[domain]) domainStats[domain] = { total: 0, correct: 0 };
       domainStats[domain].total++;
       if (answers[index] === question.respuestaCorrecta) domainStats[domain].correct++; })].
    [key] is [dominio] for [domainStats] and [nivel] for [levelStats].
    The tables start as [{}]: for a label that names an inherited
    property, [domainStats[domain]] is the inherited value, which is
    truthy, so no row is created and the increments land on that value;
    the table keeps its rows. *)
Definition groupStep (key : Question → string) (ans : gmap nat Z)
    (stats : gmap string GroupStat) (question : Question) (index : nat)
    : gmap string GroupStat :=
  if decide (key question ∈ objectPrototypeNames) then stats
  else
    let entry :=
      default {| groupTotal := 0; groupCorrect := 0 |} (stats !! key question) in
    <[key question :=
        {| groupTotal := S (groupTotal entry);
           groupCorrect :=
             if bool_decide (ans !! index = Some (respuestaCorrecta question))
             then S (groupCorrect entry) else groupCorrect entry |}]> stats.

Fixpoint groupLoop (key : Question → string) (ans : gmap nat Z)
    (qs : list Question) (index : nat) (stats : gmap string GroupStat)
    : gmap string GroupStat :=
  match qs with
  | [] => stats
  | question :: rest =>
      groupLoop key ans rest (S index) (groupStep key ans stats question index)
  end.

Definition domainStats (r : Results) : gmap string GroupStat :=
  groupLoop dominio (answers r) (questions r) 0 ∅.

Definition levelStats (r : Results) : gmap string GroupStat :=
  groupLoop nivel (answers r) (questions r) 0 ∅.

(** The column sums of such a table. *)
Definition sumTotals (stats : gmap string GroupStat) : nat :=
  map_fold (fun _ entry acc => groupTotal entry + acc) 0 stats.

Definition sumCorrect (stats : gmap string GroupStat) : nat :=
  map_fold (fun _ entry acc => groupCorrect entry + acc) 0 stats.

(** ** formatTime *)

(** [`${Math.floor(seconds / 60)}m ${seconds % 60}s`] *)
Definition formatTime (seconds : N) : string :=
  let mins := (seconds `div` 60)%N in
  let secs := (seconds `mod` 60)%N in
  pretty mins +:+ "m " +:+ pretty secs +:+ "s".

(** ** The queue of achievement popups *)

(** [achievementQueue] and [currentAchievement], with the achievements
    handed to the popup so far ([setCurrentAchievement] with a value). *)
Record Popups := {
  achievementQueue : list string;
  currentAchievement : option string;
  shown : list string
}.

(** The effect on [[achievementQueue, currentAchievement]]:
    [if (achievementQueue.length > 0 && !currentAchievement) {
       setCurrentAchievement(achievementQueue[0]);
       setAchievementQueue(prev => prev.slice(1)); }] *)
Definition popupEffect (p : Popups) : Popups :=
  match achievementQueue p, currentAchievement p with
  | first :: rest, None =>
      {| achievementQueue := rest;
         currentAchievement := Some first;
         shown := shown p ++ [first] |}
  | _, _ => p
  end.

(** [handleAchievementClose]: [setCurrentAchievement(null)]. *)
Definition handleAchievementClose (p : Popups) : Popups :=
  {| achievementQueue := achievementQueue p;
     currentAchievement := None;
     shown := shown p |}.

(** The timeout callback of the processing effect:
    [setAchievementQueue(unlockedAchievements)] for a non-empty list. *)
Definition startPopups (unlockedAchievements : list string) : Popups :=
  {| achievementQueue := unlockedAchievements;
     currentAchievement := None;
     shown := [] |}.

Inductive PopupEvent :=
  | EffectRuns
  | PopupClosed.

Definition popupStep (p : Popups) (e : PopupEvent) : Popups :=
  match e with
  | EffectRuns => popupEffect p
  | PopupClosed => handleAchievementClose p
  end.

End ResultsScreen.

(* ===================================================================== *)
(** * progressService.js, as quoted in the storage analysis report *)
(* ===================================================================== *)

Module ProgressService.

(** ** Progress payload *)

(** The fields of [data.progress] that the quoted functions read.  Every
    one is reached through optional chaining, so each may be missing. *)
Record Progress := {
  totalPoints : option Z;
  totalXP : option Z;
  quizzesTaken : option Z;
  answeredQuestions : option (list string);
  achievements : option (list string);
  missions : option (gmap string string);
  questionTracking : gmap string Z;
  checksum : option string
}.

Record ProgressData := { progress : option Progress }.

Record Options := { reason : option string; force : bool }.

(** ** JSON.stringify of a flat object of numbers *)

Definition quote : string := String (ascii_of_nat 34) EmptyString.

(** A property whose value is [undefined] is left out. *)
Definition jsonField (key : string) (value : option Z) : list string :=
  match value with
  | Some v => [quote +:+ key +:+ quote +:+ ":" +:+ pretty v]
  | None => []
  end.

Definition jsonObject (fields : list string) : string :=
  "{" +:+ String.concat "," fields +:+ "}".

Definition lengthOf {A} (xs : option (list A)) : option Z :=
  (fun l => Z.of_nat (length l)) <$> xs.

(** ** generateDataHash *)

(** [data?.progress?.f] *)
Definition chain {A} (data : option ProgressData) (f : Progress → option A)
    : option A :=
  d ← data; p ← progress d; f p.

(** The string handed to the hash by [generateDataHash] as it stands in
    the service: three progress fields and
    [Math.floor(Date.now() / 1000)].  [now] is [Date.now()], in
    milliseconds. *)
Definition hashInput (data : option ProgressData) (now : Z) : string :=
  jsonObject
    (jsonField "totalPoints" (chain data totalPoints) ++
     jsonField "quizzesTaken" (chain data quizzesTaken) ++
     jsonField "answeredQuestions" (lengthOf (chain data answeredQuestions)) ++
     jsonField "timestamp" (Some (now `div` 1000)%Z)).

(** The variant the report recommends: two more fields, no clock.
    [Object.keys(data?.progress?.missions || {}).length] is always a
    number. *)
Definition hashInputRecommended (data : option ProgressData) : string :=
  jsonObject
    (jsonField "totalPoints" (chain data totalPoints) ++
     jsonField "quizzesTaken" (chain data quizzesTaken) ++
     jsonField "answeredQuestions" (lengthOf (chain data answeredQuestions)) ++
     jsonField "achievements" (lengthOf (chain data achievements)) ++
     jsonField "missions"
       (Some (Z.of_nat (size (default ∅ (chain data missions)))))).

(** ** The rolling hash written out in the report (generateQuizSignature) *)

Definition toInt32 (z : Z) : Z := ((z + 2 ^ 31) `mod` 2 ^ 32 - 2 ^ 31)%Z.

(** [hash = ((hash << 5) - hash) + data.charCodeAt(i); hash = hash & hash;] *)
Definition rollStep (hash : Z) (c : ascii) : Z :=
  toInt32 (toInt32 (hash * 32) - hash + Z.of_nat (nat_of_ascii c)).

Fixpoint rollFrom (hash : Z) (data : string) : Z :=
  match data with
  | EmptyString => hash
  | String c rest => rollFrom (rollStep hash c) rest
  end.

Definition digit36 (d : N) : ascii :=
  ascii_of_N (if (d <? 10)%N then 48 + d else 87 + d).

Fixpoint digits36 (fuel : nat) (n : N) (acc : string) : string :=
  match fuel with
  | O => acc
  | S fuel' =>
      let acc' := String (digit36 (n `mod` 36)%N) acc in
      if (n `div` 36 =? 0)%N then acc' else digits36 fuel' (n `div` 36)%N acc'
  end.

(** [Number.prototype.toString(36)] on an integer; a number below [2^n]
    has at most [n] digits. *)
Definition toString36 (z : Z) : string :=
  let n := Z.to_N (Z.abs z) in
  (if (z <? 0)%Z then "-" else EmptyString) +:+
  digits36 (S (N.size_nat n)) n EmptyString.

Definition rollingHash (data : string) : string :=
  toString36 (rollFrom 0 data).

(** ** Storage *)

(** The two properties of the parsed head that the quoted code reads:
    [current.checksum] and [current.snapshotId]. *)
Record HeadData := {
  headChecksum : option string;
  snapshotId : string
}.

Record Snapshot := { snapshotProgress : option Progress }.

(** What a [localStorage] key holds, before [JSON.stringify] and after
    [JSON.parse]. *)
Inductive Item :=
  | HeadItem (head : HeadData)
  | SnapshotItem (snapshot : option Snapshot).

(** The two backends and the channels a failure can be reported on:
    [console] for [console.warn]/[console.error], [emitted] for
    [this.emit(name, ...)], [telemetry] for [telemetryService.emit]. *)
Record Store := {
  localStorage : gmap string Item;
  missionSnapshots : gmap string Snapshot;
  console : list string;
  emitted : list string;
  telemetry : list string
}.

Definition PROGRESS_HEAD : string := "PROGRESS_HEAD".
Definition CORRUPTED_BACKUP : string := "cxcc_corrupted_backup".

Definition setItem (key : string) (item : Item) (st : Store) : Store :=
  {| localStorage := <[key := item]> (localStorage st);
     missionSnapshots := missionSnapshots st;
     console := console st;
     emitted := emitted st;
     telemetry := telemetry st |}.

Definition putSnapshot (key : string) (snap : Snapshot) (st : Store) : Store :=
  {| localStorage := localStorage st;
     missionSnapshots := <[key := snap]> (missionSnapshots st);
     console := console st;
     emitted := emitted st;
     telemetry := telemetry st |}.

Definition consoleLog (line : string) (st : Store) : Store :=
  {| localStorage := localStorage st;
     missionSnapshots := missionSnapshots st;
     console := console st ++ [line];
     emitted := emitted st;
     telemetry := telemetry st |}.

Definition emit (name : string) (st : Store) : Store :=
  {| localStorage := localStorage st;
     missionSnapshots := missionSnapshots st;
     console := console st;
     emitted := emitted st ++ [name];
     telemetry := telemetry st |}.

Definition telemetryEmit (name : string) (st : Store) : Store :=
  {| localStorage := localStorage st;
     missionSnapshots := missionSnapshots st;
     console := console st;
     emitted := emitted st;
     telemetry := telemetry st ++ [name] |}.

(** ** performSave *)

Section Saving.

(** [simpleHash] and [generateChecksum] are methods of the service whose
    bodies the report does not quote; the functions below take them as
    they are. *)
Variable simpleHash : string → string.
Variable generateChecksum : option Progress → string.

Definition generateDataHash (data : option ProgressData) (now : Z) : string :=
  simpleHash (hashInput data now).

Definition generateDataHashRecommended (data : option ProgressData) : string :=
  simpleHash (hashInputRecommended data).

Definition emptyProgress : Progress :=
  {| totalPoints := None; totalXP := None; quizzesTaken := None;
     answeredQuestions := None; achievements := None; missions := None;
     questionTracking := ∅; checksum := None |}.

(** [{ ...snapshotPayload.progress, checksum }] *)
Definition withChecksum (p : option Progress) (c : string) : Progress :=
  let base := default emptyProgress p in
  {| totalPoints := totalPoints base; totalXP := totalXP base;
     quizzesTaken := quizzesTaken base;
     answeredQuestions := answeredQuestions base;
     achievements := achievements base; missions := missions base;
     questionTracking := questionTracking base;
     checksum := Some c |}.

(** The quoted statements of [performSave] as it stands.  [snapshotPayload]
    and [headData] are built by statements the excerpt leaves out and are
    taken as they come.  The checksum of the payload is computed and put
    into the payload, and the head is written to [localStorage]; the
    current head is not read.  The result is the store and the payload
    after the assignment to [snapshotPayload.progress]. *)
Definition performSave (st : Store) (snapshotPayload : Snapshot)
    (headData : HeadData) : Store * Snapshot :=
  let sum := generateChecksum (snapshotProgress snapshotPayload) in
  let stamped :=
    {| snapshotProgress :=
         Some (withChecksum (snapshotProgress snapshotPayload) sum) |} in
  (setItem PROGRESS_HEAD (HeadItem headData) st, stamped).

(** The check the report recommends to run first: re-derive the checksum
    of the snapshot the current head refers to and, on mismatch, copy that
    snapshot to [cxcc_corrupted_backup] and log an error.  A head without
    a checksum, or with an empty one, is not checked. *)
Definition verifyCurrentHead (st : Store) : Store :=
  match localStorage st !! PROGRESS_HEAD with
  | Some (HeadItem current) =>
      match headChecksum current with
      | Some currentChecksum =>
          if decide (currentChecksum = EmptyString) then st
          else
            let snapshot := missionSnapshots st !! snapshotId current in
            let calculatedChecksum :=
              generateChecksum (snapshot ≫= snapshotProgress) in
            if decide (calculatedChecksum = currentChecksum) then st
            else
              consoleLog "⚠️ Datos corruptos detectados, creando backup"
                (setItem CORRUPTED_BACKUP (SnapshotItem snapshot) st)
      | None => st
      end
  | _ => st
  end.

(** [performSave] as the report recommends it: the check, then the save
    as before. *)
Definition performSaveRecommended (st : Store) (snapshotPayload : Snapshot)
    (headData : HeadData) : Store * Snapshot :=
  performSave (verifyCurrentHead st) snapshotPayload headData.

(** Modelled from the spec: steps b and c of [performSave] in the Write
    Coordinator.  The payload gets its checksum, the new head is built
    with that checksum and a reference to the snapshot, the snapshot goes
    to the durable backend and the head to the fast one.  The excerpt of
    [performSave] shows of this only the checksum and the [setItem] of the
    head; [newId] is the identifier of the new snapshot. *)
Definition commitWrite (st : Store) (data : option ProgressData)
    (newId : string) : Store :=
  let payloadProgress := data ≫= progress in
  let headData :=
    {| headChecksum := Some (generateChecksum payloadProgress);
       snapshotId := newId |} in
  let saved := performSave st {| snapshotProgress := payloadProgress |} headData in
  putSnapshot newId saved.2 saved.1.

(** ** saveProgress *)

Variable MIN_SAVE_INTERVAL : Z.

(** Where the continuation of [saveProgress], which the excerpt leaves
    out, stamps [lastSaveTime]: when [performSave] is started ([true]) or
    when it has finished ([false]).  Both are covered. *)
Variable stampAtStart : bool.

Record QueueEntry := {
  entryData : option ProgressData;
  entryOptions : Options;
  entryHash : string;
  entryTimestamp : Z
}.

(** A [performSave] body that has been entered and is suspended on its
    backend I/O. *)
Record Job := {
  jobData : option ProgressData;
  jobHash : string;
  jobStarted : Z
}.

Record Service := {
  lastSaveHash : option string;
  lastSaveTime : Z;
  saveQueue : list QueueEntry;
  running : list Job;
  store : Store
}.

Definition emptyStore : Store :=
  {| localStorage := ∅; missionSnapshots := ∅; console := [];
     emitted := []; telemetry := [] |}.

Definition newService : Service :=
  {| lastSaveHash := None; lastSaveTime := 0; saveQueue := [];
     running := []; store := emptyStore |}.

Inductive SaveResult :=
  | Skipped     (* resolved with { success: true, skipped: true } *)
  | Pending     (* the promise whose resolvers sit in saveQueue *)
  | Started.    (* performSave has been entered *)

(** The quoted part of [saveProgress], called at [Date.now() = now]: the
    hash test and the throttle test.  The excerpt ends there;
    [continuation] stands for the statements that follow the throttle
    test, whatever they are. *)
Definition saveProgressWith
    (continuation : Service → option ProgressData → Options → string → Z →
                    Service * SaveResult)
    (svc : Service) (progressData : option ProgressData)
    (options : Options) (now : Z) : Service * SaveResult :=
  let dataHash := generateDataHash progressData now in
  if decide (lastSaveHash svc = Some dataHash) then (svc, Skipped)
  else if decide (now - lastSaveTime svc < MIN_SAVE_INTERVAL)%Z then
    ({| lastSaveHash := lastSaveHash svc;
        lastSaveTime := lastSaveTime svc;
        saveQueue := saveQueue svc ++
          [{| entryData := progressData; entryOptions := options;
              entryHash := dataHash; entryTimestamp := now |}];
        running := running svc;
        store := store svc |}, Pending)
  else continuation svc progressData options dataHash now.

(** Modelled from the spec: step 4 of [save] in the Write Coordinator, the
    request that is neither skipped nor queued runs [performSave].  The
    request becomes a body in flight. *)
Definition startSave (svc : Service) (progressData : option ProgressData)
    (options : Options) (dataHash : string) (now : Z) : Service * SaveResult :=
  ({| lastSaveHash := lastSaveHash svc;
      lastSaveTime := if stampAtStart then now else lastSaveTime svc;
      saveQueue := saveQueue svc;
      running := running svc ++
        [{| jobData := progressData; jobHash := dataHash;
            jobStarted := now |}];
      store := store svc |}, Started).

Definition saveProgress (svc : Service) (progressData : option ProgressData)
    (options : Options) (now : Z) : Service * SaveResult :=
  saveProgressWith startSave svc progressData options now.

(** Modelled from the spec: the commit of a write (InFlight to Committed
    to Idle).  The body number [j] resumes at time [now] and runs to its
    end: the backends are written and the hash of the saved payload becomes
    the last committed one.  The snapshot is filed under the write time. *)
Definition finishSave (svc : Service) (j : nat) (now : Z) : Service :=
  match running svc !! j with
  | Some job =>
      {| lastSaveHash := Some (jobHash job);
         lastSaveTime := if stampAtStart then lastSaveTime svc else now;
         saveQueue := saveQueue svc;
         running := delete j (running svc);
         store := commitWrite (store svc) (jobData job) (pretty now) |}
  | None => svc
  end.

(** What a caller or the event loop can do next. *)
Inductive Event :=
  | Save (progressData : option ProgressData) (options : Options) (now : Z)
  | Finish (j : nat) (now : Z).

Definition step (svc : Service) (e : Event) : Service :=
  match e with
  | Save progressData options now => (saveProgress svc progressData options now).1
  | Finish j now => finishSave svc j now
  end.

Definition run (svc : Service) (events : list Event) : Service :=
  foldl step svc events.

End Saving.

(** ** saveProgress with the write lock the report recommends *)

(** [writeLock] holds the pending promise of the body in flight, promises
    are told apart by a serial number; [resolved] are the promises whose
    [releaseLock] has been called; [waiting] are the callers suspended in
    [while (this.writeLock) await this.writeLock], each with the promise
    it awaits; [holders] are the bodies between taking the lock and their
    [finally] block, each with its own promise. *)
Record Locked := {
  writeLock : option nat;
  nextPromise : nat;
  resolved : list nat;
  waiting : list (nat * option ProgressData);
  holders : list (nat * option ProgressData)
}.

Definition newLocked : Locked :=
  {| writeLock := None; nextPromise := 0; resolved := [];
     waiting := []; holders := [] |}.

(** One evaluation of the loop test by a caller that is running: wait on
    the current promise, or create a promise, store it in [writeLock] and
    enter [performSave]. *)
Definition tryAcquire (l : Locked) (data : option ProgressData) : Locked :=
  match writeLock l with
  | Some promise =>
      {| writeLock := writeLock l; nextPromise := nextPromise l;
         resolved := resolved l;
         waiting := waiting l ++ [(promise, data)];
         holders := holders l |}
  | None =>
      {| writeLock := Some (nextPromise l);
         nextPromise := S (nextPromise l);
         resolved := resolved l;
         waiting := waiting l;
         holders := holders l ++ [(nextPromise l, data)] |}
  end.

Inductive LockEvent :=
  | Call (data : option ProgressData)   (* saveProgress is called *)
  | Resume (k : nat)                    (* waiter k continues after its await *)
  | Done (j : nat).                     (* body j reaches its finally block *)

Definition lockedStep (l : Locked) (e : LockEvent) : Locked :=
  match e with
  | Call data => tryAcquire l data
  | Resume k =>
      match waiting l !! k with
      | Some (promise, data) =>
          if decide (promise ∈ resolved l)
          then tryAcquire
                 {| writeLock := writeLock l; nextPromise := nextPromise l;
                    resolved := resolved l;
                    waiting := delete k (waiting l);
                    holders := holders l |} data
          else l
      | None => l
      end
  | Done j =>
      match holders l !! j with
      | Some (promise, _) =>
          {| writeLock := None; nextPromise := nextPromise l;
             resolved := promise :: resolved l;
             waiting := waiting l;
             holders := delete j (holders l) |}
      | None => l
      end
  end.

(** ** ensureDB *)

Inductive Settled :=
  | Resolved (handle : string)
  | Rejected (message : string).

(** [this.db] and the promise [this.dbReady], which settles once. *)
Record Connection := {
  db : option string;
  dbReady : Settled
}.

(** [ensureDB] as it stands. *)
Definition ensureDB (conn : Connection) (st : Store)
    : option string * Connection * Store :=
  match db conn with
  | Some handle => (Some handle, conn, st)
  | None =>
      match dbReady conn with
      | Resolved handle =>
          (Some handle, {| db := Some handle; dbReady := dbReady conn |}, st)
      | Rejected message =>
          (None, {| db := None; dbReady := dbReady conn |},
           consoleLog ("IndexedDB no disponible: " +:+ message) st)
      end
  end.

(** [ensureDB] as the report recommends it. *)
Definition ensureDBRecommended (conn : Connection) (st : Store)
    : option string * Connection * Store :=
  match db conn with
  | Some handle => (Some handle, conn, st)
  | None =>
      match dbReady conn with
      | Resolved handle =>
          (Some handle, {| db := Some handle; dbReady := dbReady conn |},
           telemetryEmit "indexeddb_available" st)
      | Rejected message =>
          (None, {| db := None; dbReady := dbReady conn |},
           emit "storage-degraded"
             (telemetryEmit "indexeddb_error"
                (consoleLog ("IndexedDB no disponible: " +:+ message) st)))
      end
  end.

End ProgressService.

(* ===================================================================== *)
(** * Two more recommendations of the report *)
(* ===================================================================== *)

Module Recommendations.

(** ** generateQuizSignature *)

(** [questionDetails?.map(q => q.id).sort().join(',') || ''].  [sort()]
    without a comparator orders its elements as strings by code unit;
    the sorted arrangement of a list under that order is unique, merge
    sort produces it. *)
Definition sortedIds (quizResults : ResultsScreen.QuizResultsData) : string :=
  String.concat ","
    (merge_sort String.le
       (ResultsScreen.detailId <$> ResultsScreen.questionDetails quizResults)).

(** [`${ids}-${quizResults.correctAnswers}-${quizResults.totalTime}`] and
    the hash loop over it, returned as [hash.toString(36)]. *)
Definition generateQuizSignature (quizResults : ResultsScreen.QuizResultsData)
    : string :=
  let data :=
    sortedIds quizResults +:+ "-" +:+
    pretty (ResultsScreen.dataCorrectAnswers quizResults) +:+ "-" +:+
    pretty (ResultsScreen.totalTime quizResults) in
  ProgressService.rollingHash data.

(** ** The cleanup cadence in the constructor *)

(** The white space [parseInt] skips, as far as it is ASCII. *)
Definition isSpace (c : ascii) : bool :=
  let n := N_of_ascii c in
  (9 <=? n)%N && (n <=? 13)%N || (n =? 32)%N.

Fixpoint trimStart (s : string) : string :=
  match s with
  | String c rest => if isSpace c then trimStart rest else s
  | EmptyString => EmptyString
  end.

(** The value of [c] as a digit in the given radix, if it is one. *)
Definition digitValue (radix : N) (c : ascii) : option N :=
  let n := N_of_ascii c in
  let value :=
    if (48 <=? n)%N && (n <=? 57)%N then Some (n - 48)%N
    else if (97 <=? n)%N && (n <=? 122)%N then Some (n - 87)%N
    else if (65 <=? n)%N && (n <=? 90)%N then Some (n - 55)%N
    else None in
  d ← value; if (d <? radix)%N then Some d else None.

(** The longest prefix of digits, read as a number; [acc] is [None] until
    a digit has been read. *)
Fixpoint digitsPrefix (radix : N) (acc : option N) (s : string) : option N :=
  match s with
  | String c rest =>
      match digitValue radix c with
      | Some d => digitsPrefix radix (Some (radix * default 0 acc + d)%N) rest
      | None => acc
      end
  | EmptyString => acc
  end.

Definition signOf (s : string) : bool * string :=
  match s with
  | String c rest =>
      if bool_decide (c = ascii_of_nat 45) then (true, rest)
      else if bool_decide (c = ascii_of_nat 43) then (false, rest)
      else (false, s)
  | EmptyString => (false, s)
  end.

Definition radixOf (s : string) : N * string :=
  match s with
  | String c (String x rest) =>
      if bool_decide (c = ascii_of_nat 48) &&
         (bool_decide (x = ascii_of_nat 120) || bool_decide (x = ascii_of_nat 88))
      then (16%N, rest) else (10%N, s)
  | _ => (10%N, s)
  end.

(** [parseInt(string)] with no radix argument; [None] is [NaN].  The
    integer is exact; a JavaScript number holds it exactly up to
    [2^53]. *)
Definition parseInt (s : string) : option Z :=
  let signed := signOf (trimStart s) in
  let based := radixOf signed.2 in
  (fun n => if signed.1 then (- Z.of_N n)%Z else Z.of_N n)
    <$> digitsPrefix based.1 None based.2.

Definition SEVEN_DAYS : Z := 7 * 24 * 60 * 60 * 1000.

(** [!lastCleanup || now - parseInt(lastCleanup) > 7 * 24 * 60 * 60 * 1000]
    with [lastCleanup = localStorage.getItem('cxcc_last_cleanup')]: a
    missing key reads as [null], and a comparison with [NaN] is false. *)
Definition cleanupDue (lastCleanup : option string) (now : N) : bool :=
  match lastCleanup with
  | None => true
  | Some stored =>
      if decide (stored = EmptyString) then true
      else
        match parseInt stored with
        | Some last => bool_decide (Z.of_N now - last > SEVEN_DAYS)%Z
        | None => false
        end
  end.

(** What the key holds once [cleanup(30)] has resolved:
    [localStorage.setItem('cxcc_last_cleanup', now.toString())]. *)
Definition stampCleanup (now : N) : option string := Some (pretty now).

(** The constructor at [Date.now() = now], its cleanup run to the end. *)
Definition construct (lastCleanup : option string) (now : N) : option string :=
  if cleanupDue lastCleanup now then stampCleanup now else lastCleanup.

End Recommendations.

(* ===================================================================== *)
(** * Schema migrator *)
(* ===================================================================== *)

Module Migrator.

(** A persisted snapshot: its schema version tag and its fields. *)
Record Snapshot := {
  version : nat;
  payload : gmap string Z
}.

Section Chain.

(** Modelled from the spec: the migrator is not among the repository files.
    Section 4.3 describes it as an ordered chain of version-specific
    transforms, transform [n] taking a version-[n] snapshot to version
    [n + 1]; they are applied in ascending order, none is skipped, and the
    chain stops when the snapshot is at the current schema version.  A
    transform fills in defaults and fails only on structurally invalid
    input ([None], the [MigrationFailed] error). *)
Variable chain : list (gmap string Z → option (gmap string Z)).

Definition CURRENT_VERSION : nat := length chain.

Fixpoint applyChain (transforms : list (gmap string Z → option (gmap string Z)))
    (v : nat) (fields : gmap string Z) : option Snapshot :=
  match transforms with
  | [] => Some {| version := v; payload := fields |}
  | transform :: rest =>
      fields' ← transform fields;
      applyChain rest (S v) fields'
  end.

(** Modelled from the spec: [migrate] runs the transforms from the
    snapshot's own version upwards.  A version above the current one has
    no transform that could bring it to the current version. *)
Definition migrate (s : Snapshot) : option Snapshot :=
  if decide (version s ≤ CURRENT_VERSION)
  then applyChain (drop (version s) chain) (version s) (payload s)
  else None.

End Chain.

(** A three-step chain used for evaluation: version 1 introduces
    [totalXP], version 2 [quizzesTaken], version 3 requires [totalPoints]
    to be present. *)
Definition fillDefault (key : string) (value : Z) (fields : gmap string Z)
    : gmap string Z :=
  match fields !! key with
  | Some _ => fields
  | None => <[key := value]> fields
  end.

Definition sampleChain : list (gmap string Z → option (gmap string Z)) :=
  [ (fun fields => Some (fillDefault "totalXP" 0 fields));
    (fun fields => Some (fillDefault "quizzesTaken" 0 fields));
    (fun fields => if fields !! "totalPoints" is Some _ then Some fields else None) ].

End Migrator.

(* ===================================================================== *)
(** * Facts about the strings the code builds *)
(* ===================================================================== *)

Module Text.

(** Every character of [s] passes the test [P]. *)
Fixpoint allChars (P : ascii → bool) (s : string) : bool :=
  match s with
  | EmptyString => true
  | String c rest => P c && allChars P rest
  end.

(** [s] is empty or starts with a character that fails [P]. *)
Definition stopsAt (P : ascii → bool) (s : string) : bool :=
  match s with
  | EmptyString => true
  | String c _ => negb (P c)
  end.

Definition isDigit (c : ascii) : bool :=
  (48 <=? N_of_ascii c)%N && (N_of_ascii c <=? 57)%N.

Definition minus : ascii := ascii_of_nat 45.

Definition isNumeric (c : ascii) : bool :=
  isDigit c || bool_decide (c = minus).

Definition notQuote (c : ascii) : bool := negb (bool_decide (c = ascii_of_nat 34)).

Lemma app_cons (c : ascii) (s t : string) : String c s +:+ t = String c (s +:+ t).
Proof. reflexivity. Qed.

Lemma app_nil_l (t : string) : EmptyString +:+ t = t.
Proof. reflexivity. Qed.

Lemma app_assoc (s1 s2 s3 : string) : (s1 +:+ s2) +:+ s3 = s1 +:+ s2 +:+ s3.
Proof.
  induction s1 as [|c s1 IH]; [done|]. rewrite !app_cons. by rewrite IH.
Qed.

Lemma app_nil_r (s : string) : s +:+ EmptyString = s.
Proof. induction s as [|c s IH]; [done|]. rewrite app_cons. by rewrite IH. Qed.

Lemma allChars_app P (s1 s2 : string) :
  allChars P (s1 +:+ s2) = allChars P s1 && allChars P s2.
Proof.
  induction s1 as [|c s1 IH]; [done|]. rewrite app_cons. cbn [allChars].
  rewrite IH. by destruct (P c).
Qed.

Lemma allChars_weaken (P Q : ascii → bool) (s : string) :
  (∀ c, P c = true → Q c = true) → allChars P s = true → allChars Q s = true.
Proof.
  intros Himp. induction s as [|c s IH]; [done|]. cbn [allChars].
  intros [Hc Hs]%andb_prop. by rewrite (Himp c Hc), IH.
Qed.

(** A run of [P]-characters followed by a stop determines both parts. *)
Lemma split_left P : ∀ u u' t t' : string,
  allChars P u = true → allChars P u' = true →
  stopsAt P t = true → stopsAt P t' = true →
  u +:+ t = u' +:+ t' → u = u' ∧ t = t'.
Proof.
  induction u as [|c u IH]; intros [|c' u'] t t' Hu Hu' Ht Ht' Heq;
    rewrite ?app_cons, ?app_nil_l in Heq; cbn [allChars] in *.
  - done.
  - subst t. cbn in Ht. apply andb_prop in Hu' as [Hc _].
    by rewrite Hc in Ht.
  - subst t'. cbn in Ht'. apply andb_prop in Hu as [Hc _].
    by rewrite Hc in Ht'.
  - injection Heq as -> Heq.
    apply andb_prop in Hu as [_ Hu]. apply andb_prop in Hu' as [_ Hu'].
    destruct (IH u' t t' Hu Hu' Ht Ht' Heq) as [-> ->]. done.
Qed.

(** A separator followed by a run of [P]-characters up to the end
    determines both parts. *)
Lemma split_right P (sep : ascii) : ∀ s s' d d' : string,
  P sep = false → allChars P d = true → allChars P d' = true →
  s +:+ String sep d = s' +:+ String sep d' → s = s' ∧ d = d'.
Proof.
  induction s as [|c s IH]; intros [|c' s'] d d' Hsep Hd Hd' Heq;
    rewrite ?app_cons, ?app_nil_l in Heq.
  - by injection Heq as ->.
  - injection Heq as _ Heq. subst d.
    rewrite allChars_app in Hd. cbn [allChars] in Hd. rewrite Hsep in Hd.
    by destruct (allChars P s').
  - injection Heq as _ Heq. subst d'.
    rewrite allChars_app in Hd'. cbn [allChars] in Hd'. rewrite Hsep in Hd'.
    by destruct (allChars P s).
  - injection Heq as -> Heq.
    destruct (IH s' d d' Hsep Hd Hd' Heq) as [-> ->]. done.
Qed.

(** ** Decimal numerals *)

Lemma pretty_N_char_digit (x : N) : isDigit (pretty_N_char x) = true.
Proof. unfold pretty_N_char. by repeat case_match. Qed.

Lemma pretty_N_go_digits (x : N) : ∀ s,
  allChars isDigit s = true → allChars isDigit (pretty_N_go x s) = true.
Proof.
  induction (N.lt_wf_0 x) as [x _ IH]; intros s Hs.
  assert (x = 0 ∨ 0 < x)%N as [->|Hpos] by lia.
  - by rewrite pretty_N_go_0.
  - rewrite pretty_N_go_step by done. apply IH.
    + by apply N.div_lt.
    + cbn [allChars]. by rewrite pretty_N_char_digit, Hs.
Qed.

Lemma pretty_N_digits (x : N) : allChars isDigit (pretty x) = true.
Proof.
  unfold pretty, pretty_N. case_decide; [done|]. by apply pretty_N_go_digits.
Qed.

Lemma pretty_nat_digits (x : nat) : allChars isDigit (pretty x) = true.
Proof. apply pretty_N_digits. Qed.

Lemma digit_numeric c : isDigit c = true → isNumeric c = true.
Proof. unfold isNumeric. by intros ->. Qed.

Lemma pretty_Z_numeric (z : Z) : allChars isNumeric (pretty z) = true.
Proof.
  destruct z as [|x|x]; [done| |].
  - apply (allChars_weaken isDigit); [apply digit_numeric|].
    apply (pretty_N_digits (Npos x)).
  - change (pretty (Z.neg x)) with ("-" +:+ pretty (Npos x)).
    rewrite allChars_app. apply andb_true_intro. split; [done|].
    apply (allChars_weaken isDigit); [apply digit_numeric|].
    apply pretty_N_digits.
Qed.

End Text.

(* ===================================================================== *)
(** * Properties of ResultsScreen.js *)
(* ===================================================================== *)

Module ResultsScreenProps.
Import ResultsScreen.

Definition q1 : Question :=
  {| id := "q1"; respuestaCorrecta := 2; dominio := "preparar-datos";
     nivel := "principiante"; subdominio := None; formato := None;
     trampaComun := None |}.
Definition q2 : Question :=
  {| id := "q2"; respuestaCorrecta := 0; dominio := "modelar-datos";
     nivel := "avanzado"; subdominio := Some "dax"; formato := None;
     trampaComun := Some "filtro" |}.
Definition q3 : Question :=
  {| id := "q3"; respuestaCorrecta := 1; dominio := "visualizar";
     nivel := "intermedio"; subdominio := None; formato := None;
     trampaComun := None |}.

(** Three questions, the first answered right, the second wrong, the third
    left open. *)
Definition sampleResults : Results :=
  {| questions := [q1; q2; q3];
     answers := {[ 0%nat := 2%Z; 1%nat := 3%Z ]};
     timeElapsed := 90;
     configDomain := None |}.

Example sample_stats :
  let s := computeStats sampleResults in
  (totalQuestions s, answeredQuestions s, correctAnswers s,
   incorrectAnswers s, unanswered s) = (3, 2, 1, 1, 1%Z).
Proof. vm_compute. reflexivity. Qed.

Example sample_quizId : quizIdOf sampleResults = "q1_90_3".
Proof. vm_compute. reflexivity. Qed.

Example sample_effect_calls :
  length (calls (runEffect mount (Some sampleResults))) = 7.
Proof. vm_compute. reflexivity. Qed.

Lemma sample_keys_in_range :
  ∀ index : nat, index ∈ dom (answers sampleResults) →
                 index < length (questions sampleResults).
Proof.
  intros index. unfold sampleResults. simpl.
  rewrite dom_insert_L, dom_singleton_L. intros Hin.
  assert (index = 0 ∨ index = 1) as [-> | ->] by set_solver; lia.
Qed.

(** ** The counters partition the questions *)

Definition counterSum (acc : nat * nat) : nat := acc.1 + acc.2.

Lemma countStep_sum ans question index acc :
  counterSum (countStep ans question index acc) =
  counterSum acc + (if ans !! index is Some _ then 1 else 0).
Proof.
  unfold countStep, counterSum.
  destruct (ans !! index) as [a|]; [|lia].
  case_bool_decide; simpl; lia.
Qed.

(** The loop started at [index] only reads [answers] at [index] and above. *)
Lemma countLoop_ext qs : ∀ (index : nat) (m1 m2 : gmap nat Z) acc,
  (∀ k, index ≤ k → m1 !! k = m2 !! k) →
  countLoop m1 qs index acc = countLoop m2 qs index acc.
Proof.
  induction qs as [|question rest IH]; intros index m1 m2 acc Hagree; [done|].
  simpl. unfold countStep. rewrite (Hagree index) by lia.
  apply IH. intros k Hk. apply Hagree. lia.
Qed.

(** When every key of [answers] lies in the window the loop still has to
    visit, the loop adds exactly one to the counters per key. *)
Lemma countLoop_sum qs : ∀ (index : nat) (ans : gmap nat Z) acc,
  (∀ k, is_Some (ans !! k) → index ≤ k < index + length qs) →
  counterSum (countLoop ans qs index acc) = counterSum acc + size ans.
Proof.
  induction qs as [|question rest IH]; intros index ans acc Hdom.
  - simpl. assert (ans = ∅) as ->.
    { apply map_empty. intros k. apply eq_None_not_Some. intros Hk.
      apply Hdom in Hk. simpl in Hk. lia. }
    rewrite map_size_empty. lia.
  - simpl.
    rewrite (countLoop_ext rest (S index) ans (delete index ans)).
    2:{ intros k Hk. rewrite lookup_delete_ne by lia. done. }
    rewrite IH.
    2:{ intros k Hk. destruct (decide (k = index)) as [->|Hne].
        - rewrite lookup_delete_eq in Hk. by destruct Hk.
        - rewrite lookup_delete_ne in Hk by done.
          apply Hdom in Hk. simpl in Hk. lia. }
    rewrite countStep_sum.
    destruct (ans !! index) as [a|] eqn:Hlook.
    + pose proof (map_size_delete index ans) as Hsize.
      rewrite Hlook in Hsize.
      assert (size ans ≠ 0).
      { apply map_size_non_empty_iff. intros ->. by rewrite lookup_empty in Hlook. }
      lia.
    + rewrite delete_id by done. lia.
Qed.

Lemma countLoop_shift ans qs : ∀ (index : nat) (c w dc dw : nat),
  countLoop ans qs index (dc + c, dw + w)
  = (dc + (countLoop ans qs index (c, w)).1, dw + (countLoop ans qs index (c, w)).2).
Proof.
  induction qs as [|question rest IH]; intros index c w dc dw; simpl; [done|].
  unfold countStep. destruct (ans !! index) as [a|]; simpl; [|apply IH].
  case_bool_decide.
  - rewrite <-(IH (S index) (S c) w dc dw). do 2 f_equal. lia.
  - rewrite <-(IH (S index) c (S w) dc dw). do 2 f_equal. lia.
Qed.

(** The entry [(k, a)] of [answers] counts as correct when [k] is a
    question index and [a] is that question's right answer. *)
Definition goodEntry (qs : list Question) (entry : nat * Z) : Prop :=
  keyIsCorrect qs entry = Some true.

Global Instance goodEntry_dec qs entry : Decision (goodEntry qs entry).
Proof. unfold goodEntry. apply _. Defined.

Lemma goodEntry_nil i a : ¬ goodEntry [] (i, a).
Proof. unfold goodEntry, keyIsCorrect. simpl. by destruct i. Qed.

Lemma goodEntry_head question rest a :
  goodEntry (question :: rest) (0, a) ↔ a = respuestaCorrecta question.
Proof.
  unfold goodEntry, keyIsCorrect. simpl. case_bool_decide; split; done.
Qed.

Lemma goodEntry_tail question rest i a :
  goodEntry (question :: rest) (S i, a) ↔ goodEntry rest (i, a).
Proof. done. Qed.

Lemma countLoop_insert qs : ∀ (index : nat) (ans : gmap nat Z) (i : nat) (a : Z) acc,
  ans !! i = None → index ≤ i →
  (countLoop (<[i := a]> ans) qs index acc).1
  = (countLoop ans qs index acc).1 +
    (if decide (goodEntry qs (i - index, a)) then 1 else 0).
Proof.
  induction qs as [|question rest IH]; intros index ans i a [c w] Hfresh Hle.
  - destruct (decide (goodEntry [] (i - index, a))) as [Hgood|_].
    + by apply goodEntry_nil in Hgood.
    + simpl. lia.
  - cbn [countLoop]. destruct (decide (i = index)) as [->|Hne].
    + rewrite (countLoop_ext rest (S index) (<[index := a]> ans) ans).
      2:{ intros k Hk. apply lookup_insert_ne. lia. }
      unfold countStep. rewrite lookup_insert_eq, Hfresh.
      replace (index - index) with 0 by lia.
      destruct (decide (goodEntry (question :: rest) (0, a))) as [Hgood|Hbad].
      * apply goodEntry_head in Hgood. rewrite bool_decide_eq_true_2 by done.
        pose proof (countLoop_shift ans rest (S index) c w 1 0) as Hshift.
        simpl in *. rewrite Hshift. simpl. lia.
      * rewrite goodEntry_head in Hbad. rewrite bool_decide_eq_false_2 by done.
        pose proof (countLoop_shift ans rest (S index) c w 0 1) as Hshift.
        simpl in *. rewrite Hshift. simpl. lia.
    + assert (countStep (<[i := a]> ans) question index (c, w)
              = countStep ans question index (c, w)) as ->.
      { unfold countStep. by rewrite lookup_insert_ne. }
      rewrite IH by (done || lia).
      replace (i - index) with (S (i - S index)) by lia.
      destruct (decide (goodEntry rest (i - S index, a))) as [Hgood|Hbad];
        destruct (decide (goodEntry (question :: rest) (S (i - S index), a)))
          as [Hgood'|Hbad']; done.
Qed.

Lemma countLoop_empty qs : ∀ (index : nat) acc, countLoop ∅ qs index acc = acc.
Proof.
  induction qs as [|question rest IH]; intros index acc; [done|].
  simpl. unfold countStep. rewrite lookup_empty. apply IH.
Qed.

Lemma countLoop_good (qs : list Question) (ans : gmap nat Z) :
  (countLoop ans qs 0 (0, 0)).1 = length (filter (goodEntry qs) (map_to_list ans)).
Proof.
  induction ans as [|i a ans Hfresh IH] using map_ind.
  - by rewrite map_to_list_empty, countLoop_empty.
  - rewrite countLoop_insert by (done || lia). rewrite IH.
    rewrite (map_to_list_insert ans i a) by done.
    rewrite filter_cons. replace (i - 0) with i by lia.
    destruct (decide (goodEntry qs (i, a))); simpl; lia.
Qed.

(** C8. In the statistics of [ResultsScreen], whenever every key of
    [answers] is the index of a question, the counters partition the
    questions: [totalQuestions] is the number of questions,
    [answeredQuestions] the number of keys of [answers], [correctAnswers]
    the number of those keys whose answer is the right one, and
    [correctAnswers + incorrectAnswers = answeredQuestions],
    [unanswered = totalQuestions - answeredQuestions],
    [correctAnswers + incorrectAnswers + unanswered = totalQuestions]. *)
Theorem stats_partition (r : Results) :
  (∀ index : nat, index ∈ dom (answers r) → index < length (questions r)) →
  let s := computeStats r in
  totalQuestions s = length (questions r) ∧
  answeredQuestions s = size (answers r) ∧
  correctAnswers s
  = length (filter (goodEntry (questions r)) (map_to_list (answers r))) ∧
  correctAnswers s + incorrectAnswers s = answeredQuestions s ∧
  unanswered s = (Z.of_nat (totalQuestions s) - Z.of_nat (answeredQuestions s))%Z ∧
  (Z.of_nat (correctAnswers s) + Z.of_nat (incorrectAnswers s) + unanswered s
   = Z.of_nat (totalQuestions s))%Z.
Proof.
  intros Hkeys.
  assert (counterSum (countLoop (answers r) (questions r) 0 (0, 0))
          = size (answers r)) as Hsum.
  { rewrite countLoop_sum; [done|].
    intros k Hk. apply elem_of_dom, Hkeys in Hk. lia. }
  pose proof (countLoop_good (questions r) (answers r)) as Hgood.
  unfold counterSum in Hsum. simpl.
  split; [done|]. split; [done|]. split; [done|]. split; [done|].
  split; [done|]. lia.
Qed.

Lemma stats_partition_witness :
  (∀ index : nat, index ∈ dom (answers sampleResults) →
                  index < length (questions sampleResults)) ∧
  correctAnswers (computeStats sampleResults)
  + incorrectAnswers (computeStats sampleResults)
  = answeredQuestions (computeStats sampleResults).
Proof.
  split; [exact sample_keys_in_range|].
  exact (proj1 (proj2 (proj2 (proj2
           (stats_partition sampleResults sample_keys_in_range))))).
Defined.

(** ** The processing effect runs once per quiz identifier *)

Lemma runEffect_marks st r :
  unmounted (runEffect st (Some r)) = true ∨
  processedQuizId (runEffect st (Some r)) = Some (quizIdOf r).
Proof.
  unfold runEffect. destruct (unmounted st) eqn:Hgone; [by left|].
  case_decide as Hseen; [by right|].
  destruct (countCorrectKeys r); [by right|by left].
Qed.

Lemma runEffect_same_id st r :
  unmounted st = true ∨ processedQuizId st = Some (quizIdOf r) →
  runEffect st (Some r) = st.
Proof.
  intros Hseen. unfold runEffect. destruct (unmounted st); [done|].
  destruct Hseen as [?|Hseen]; [done|]. by rewrite decide_True.
Qed.

Lemma reruns_same_id st quizId (reruns : list Results) :
  unmounted st = true ∨ processedQuizId st = Some quizId →
  Forall (fun r' => quizIdOf r' = quizId) reruns →
  foldl runEffect st (Some <$> reruns) = st.
Proof.
  intros Hseen Hall. induction Hall as [|r' rest Hid _ IH]; [done|].
  change (foldl runEffect (runEffect st (Some r')) (Some <$> rest) = st).
  rewrite runEffect_same_id by (rewrite Hid; exact Hseen). exact IH.
Qed.

(** C9, as amended. Once the effect has run for a quiz, the runs that
    follow it for results with the same identifier
    [`${first id}_${timeElapsed}_${count}`], with no run for another
    identifier in between, return at the [processedQuizId] test: the
    component is unchanged, so no further [recordQuestionAttempt],
    [saveAnsweredQuestion] or [updateProgressAfterQuiz] call is made. *)
Theorem quiz_processed_once (st : Component) (r : Results)
    (reruns : list Results) :
  Forall (fun r' => quizIdOf r' = quizIdOf r) reruns →
  let processed := runEffect st (Some r) in
  foldl runEffect processed (Some <$> reruns) = processed ∧
  calls (foldl runEffect processed (Some <$> reruns)) = calls processed.
Proof.
  intros Hall processed.
  assert (foldl runEffect processed (Some <$> reruns) = processed) as Hsame.
  { apply reruns_same_id with (quizId := quizIdOf r); [|done].
    apply runEffect_marks. }
  by rewrite Hsame.
Qed.

(** The same quiz handed over again with fresh callback identities: the
    effect re-runs on equal results. *)
Lemma quiz_processed_once_witness :
  Forall (fun r' => quizIdOf r' = quizIdOf sampleResults)
         [sampleResults; sampleResults] ∧
  length (calls (foldl runEffect (runEffect mount (Some sampleResults))
                   (Some <$> [sampleResults; sampleResults]))) = 7.
Proof.
  assert (Forall (fun r' => quizIdOf r' = quizIdOf sampleResults)
                 [sampleResults; sampleResults]) as Hall.
  { repeat constructor. }
  split; [exact Hall|].
  rewrite (proj2 (quiz_processed_once mount sampleResults _ Hall)).
  vm_compute. reflexivity.
Defined.

Definition otherResults : Results :=
  {| questions := [q2];
     answers := {[ 0 := 0%Z ]};
     timeElapsed := 12;
     configDomain := Some "modelar-datos" |}.

(** C9, as stated, fails. The ref holds one identifier: after the effect
    has run for one quiz and then for another, a run for the first quiz,
    with the identifier it had before, makes all its calls again. *)
Lemma rerun_after_other_quiz_processes_again :
  let processed := runEffect mount (Some sampleResults) in
  let other := runEffect processed (Some otherResults) in
  let again := runEffect other (Some sampleResults) in
  processedQuizId processed = Some (quizIdOf sampleResults) ∧
  calls again = calls other ++ perQuestionCalls sampleResults ++
    [ UpdateProgressAfterQuiz (quizResultsDataOf sampleResults 1);
      DispatchProgressUpdated 3;
      ScheduleCheckAchievements ] ∧
  calls again ≠ calls other.
Proof.
  vm_compute. split; [reflexivity|]. split; [reflexivity|]. discriminate.
Qed.

Example reprocessed_after_other_quiz :
  length (calls (foldl runEffect mount
            [Some sampleResults; Some otherResults; Some sampleResults])) = 19.
Proof. vm_compute. reflexivity. Qed.

(** A key of [answers] beyond the questions stops the effect at step 3,
    after the per-question calls; the instance does not survive it. *)
Example effect_aborts_on_foreign_key :
  let r := {| questions := [q1]; answers := {[ 0 := 2%Z; 5 := 1%Z ]};
              timeElapsed := 10; configDomain := None |} in
  countCorrectKeys r = None ∧
  length (calls (runEffect mount (Some r))) = 2 ∧
  unmounted (runEffect mount (Some r)) = true.
Proof. vm_compute. repeat split. Qed.

(** ** toggleQuestion *)

Lemma toggleQuestion_elem (E : gset nat) (i j : nat) :
  j ∈ toggleQuestion E i ↔ (j = i ∧ i ∉ E) ∨ (j ≠ i ∧ j ∈ E).
Proof.
  unfold toggleQuestion. simpl. case_decide as Hin.
  - rewrite elem_of_difference, elem_of_singleton.
    destruct (decide (j = i)) as [->|]; tauto.
  - rewrite elem_of_union, elem_of_singleton.
    destruct (decide (j = i)) as [->|]; tauto.
Qed.

(** C10. [toggleQuestion] flips the membership of [index] in the expanded
    set and of no other index, and toggling the same index twice gives the
    set back. *)
Theorem toggleQuestion_involution (E : gset nat) (index : nat) :
  (index ∈ toggleQuestion E index ↔ index ∉ E) ∧
  (∀ j : nat, j ≠ index → (j ∈ toggleQuestion E index ↔ j ∈ E)) ∧
  toggleQuestion (toggleQuestion E index) index = E.
Proof.
  split; [|split].
  - rewrite toggleQuestion_elem. tauto.
  - intros j Hne. rewrite toggleQuestion_elem. tauto.
  - apply set_eq. intros j. rewrite !toggleQuestion_elem.
    destruct (decide (j = index)) as [->|Hne]; [|tauto].
    destruct (decide (index ∈ E)); tauto.
Qed.

Example toggle_sample :
  toggleQuestion {[ 1; 4 ]} 4 = {[ 1 ]} ∧
  toggleQuestion {[ 1 ]} 4 = {[ 1; 4 ]}.
Proof. split; vm_compute; reflexivity. Qed.

(** ** Statistics per domain and per level *)

Definition sumBy (f : GroupStat → nat) (stats : gmap string GroupStat) : nat :=
  map_fold (fun _ entry acc => f entry + acc) 0 stats.

Lemma sumBy_insert f (stats : gmap string GroupStat) k entry :
  sumBy f (<[k := entry]> stats) + from_option f 0 (stats !! k)
  = sumBy f stats + f entry.
Proof.
  unfold sumBy. destruct (stats !! k) as [old|] eqn:Hold; simpl.
  - rewrite (map_fold_delete_L _ _ k old stats); [|intros; lia|done].
    rewrite <-insert_delete_eq.
    rewrite map_fold_insert_L; [lia|intros; lia|apply lookup_delete_eq].
  - rewrite map_fold_insert_L; [lia|intros; lia|done].
Qed.

(** A label that gets a row of its own. *)
Definition ordinaryLabel (label : string) : Prop :=
  label ∉ objectPrototypeNames.

Global Instance ordinaryLabel_dec label : Decision (ordinaryLabel label).
Proof. unfold ordinaryLabel. apply _. Defined.

Lemma groupStep_inherited key ans stats question index :
  ¬ ordinaryLabel (key question) →
  groupStep key ans stats question index = stats.
Proof.
  intros Hnot. unfold groupStep. rewrite decide_True; [done|].
  by apply dec_stable.
Qed.

Lemma groupStep_ordinary key ans stats question index :
  ordinaryLabel (key question) →
  groupStep key ans stats question index
  = <[key question :=
        {| groupTotal :=
             S (groupTotal (default {| groupTotal := 0; groupCorrect := 0 |}
                              (stats !! key question)));
           groupCorrect :=
             if bool_decide (ans !! index = Some (respuestaCorrecta question))
             then S (groupCorrect (default {| groupTotal := 0; groupCorrect := 0 |}
                                     (stats !! key question)))
             else groupCorrect (default {| groupTotal := 0; groupCorrect := 0 |}
                                  (stats !! key question)) |}]> stats.
Proof. intros Hord. unfold groupStep. by rewrite decide_False. Qed.

Lemma groupStep_sumTotals key ans stats question index :
  sumTotals (groupStep key ans stats question index)
  = sumTotals stats + (if decide (ordinaryLabel (key question)) then 1 else 0).
Proof.
  destruct (decide (ordinaryLabel (key question))) as [Hord|Hnot].
  - rewrite groupStep_ordinary by done.
    pose proof (sumBy_insert groupTotal stats (key question)
      {| groupTotal :=
           S (groupTotal (default {| groupTotal := 0; groupCorrect := 0 |}
                            (stats !! key question)));
         groupCorrect :=
           if bool_decide (ans !! index = Some (respuestaCorrecta question))
           then S (groupCorrect (default {| groupTotal := 0; groupCorrect := 0 |}
                                   (stats !! key question)))
           else groupCorrect (default {| groupTotal := 0; groupCorrect := 0 |}
                                (stats !! key question)) |}) as Hsum.
    unfold sumBy in Hsum. unfold sumTotals.
    destruct (stats !! key question); simpl in *; lia.
  - rewrite groupStep_inherited by done. lia.
Qed.

Lemma groupStep_sumCorrect key ans stats question index :
  ordinaryLabel (key question) →
  sumCorrect (groupStep key ans stats question index)
  = sumCorrect stats +
    (if bool_decide (ans !! index = Some (respuestaCorrecta question)) then 1 else 0).
Proof.
  intros Hord. rewrite groupStep_ordinary by done.
  pose proof (sumBy_insert groupCorrect stats (key question)
    {| groupTotal :=
         S (groupTotal (default {| groupTotal := 0; groupCorrect := 0 |}
                          (stats !! key question)));
       groupCorrect :=
         if bool_decide (ans !! index = Some (respuestaCorrecta question))
         then S (groupCorrect (default {| groupTotal := 0; groupCorrect := 0 |}
                                 (stats !! key question)))
         else groupCorrect (default {| groupTotal := 0; groupCorrect := 0 |}
                              (stats !! key question)) |}) as Hsum.
  unfold sumBy in Hsum. unfold sumCorrect.
  destruct (stats !! key question); case_bool_decide; simpl in *; lia.
Qed.

Lemma countStep_correct ans question index acc :
  (countStep ans question index acc).1
  = acc.1 + (if bool_decide (ans !! index = Some (respuestaCorrecta question))
             then 1 else 0).
Proof.
  unfold countStep.
  destruct (ans !! index) as [a|]; repeat case_bool_decide;
    simplify_eq; simpl; lia.
Qed.

Lemma groupLoop_sumTotals key ans qs : ∀ (index : nat) stats,
  sumTotals (groupLoop key ans qs index stats)
  = sumTotals stats + length (filter (fun q => ordinaryLabel (key q)) qs).
Proof.
  induction qs as [|question rest IH]; intros index stats; simpl; [lia|].
  rewrite IH, groupStep_sumTotals, filter_cons.
  destruct (decide (ordinaryLabel (key question))); simpl; lia.
Qed.

Lemma groupLoop_sumCorrect key ans qs : ∀ (index : nat) stats acc,
  Forall (fun q => ordinaryLabel (key q)) qs →
  sumCorrect (groupLoop key ans qs index stats) + acc.1
  = sumCorrect stats + (countLoop ans qs index acc).1.
Proof.
  induction qs as [|question rest IH]; intros index stats acc Hall; simpl; [lia|].
  apply Forall_cons in Hall as [Hord Hall].
  pose proof (IH (S index) (groupStep key ans stats question index)
                (countStep ans question index acc) Hall) as Hrest.
  rewrite groupStep_sumCorrect, countStep_correct in Hrest by done. lia.
Qed.

(** What a user reads off a row: it stands for at least one question, and
    it has no more right answers than questions. *)
Definition rowsSound (stats : gmap string GroupStat) : Prop :=
  ∀ k entry, stats !! k = Some entry →
    1 ≤ groupTotal entry ∧ groupCorrect entry ≤ groupTotal entry.

Lemma groupStep_rowsSound key ans stats question index :
  rowsSound stats → rowsSound (groupStep key ans stats question index).
Proof.
  intros Hrows.
  destruct (decide (ordinaryLabel (key question))) as [Hord|Hnot];
    [|by rewrite groupStep_inherited].
  rewrite groupStep_ordinary by done. intros k entry.
  destruct (decide (key question = k)) as [<-|Hne].
  - rewrite lookup_insert_eq. intros [= <-]. simpl.
    destruct (stats !! key question) as [old|] eqn:Hold; simpl.
    + destruct (Hrows _ _ Hold). case_bool_decide; lia.
    + case_bool_decide; lia.
  - rewrite lookup_insert_ne by done. apply Hrows.
Qed.

Lemma groupLoop_rowsSound key ans qs : ∀ (index : nat) stats,
  rowsSound stats → rowsSound (groupLoop key ans qs index stats).
Proof.
  induction qs as [|question rest IH]; intros index stats Hrows; simpl; [done|].
  by apply IH, groupStep_rowsSound.
Qed.

Lemma groupLoop_keys key ans qs : ∀ (index : nat) stats k,
  is_Some (groupLoop key ans qs index stats !! k) ↔
  is_Some (stats !! k) ∨
  (ordinaryLabel k ∧ ∃ question, question ∈ qs ∧ key question = k).
Proof.
  induction qs as [|question rest IH]; intros index stats k; simpl.
  - split; [by left|]. intros [?|(_ & question & Hin & _)]; [done|].
    by apply not_elem_of_nil in Hin.
  - rewrite IH. setoid_rewrite elem_of_cons.
    destruct (decide (ordinaryLabel (key question))) as [Hord|Hnot].
    + rewrite groupStep_ordinary by done. rewrite lookup_insert_is_Some. split.
      * intros [[Hk|[_ ?]]|(Hk & q & Hin & Hq)]; [|by left|by eauto 8].
        right. subst k. eauto.
      * intros [?|(Hk & q & [Hq0|Hin] & Hq)]; [|subst q; eauto|by eauto 8].
        destruct (decide (key question = k)); eauto.
    + rewrite groupStep_inherited by done. split.
      * intros [?|(Hk & q & Hin & Hq)]; [by left|by eauto 8].
      * intros [?|(Hk & q & [Hq0|Hin] & Hq)]; [by left| |by eauto 8].
        subst q k. done.
Qed.

(** X1. The per-domain and the per-level table each account once for
    every question whose label is not the name of an inherited object
    property, and for no other question: their [total] column sums to the
    number of such questions, a label has a row exactly when it is such a
    label and some question carries it, and every row has [total >= 1] and
    [correct <= total]. *)
Theorem group_tables_account_for_all_questions (r : Results) :
  (sumTotals (domainStats r)
   = length (filter (fun q => ordinaryLabel (dominio q)) (questions r)) ∧
   rowsSound (domainStats r) ∧
   ∀ d, is_Some (domainStats r !! d) ↔
        ordinaryLabel d ∧ ∃ question, question ∈ questions r ∧ dominio question = d) ∧
  (sumTotals (levelStats r)
   = length (filter (fun q => ordinaryLabel (nivel q)) (questions r)) ∧
   rowsSound (levelStats r) ∧
   ∀ l, is_Some (levelStats r !! l) ↔
        ordinaryLabel l ∧ ∃ question, question ∈ questions r ∧ nivel question = l).
Proof.
  assert (rowsSound ∅) as Hempty by (intros k entry; by rewrite lookup_empty).
  assert (sumTotals ∅ = 0) as Hzero by done.
  unfold domainStats, levelStats.
  split; (split; [rewrite groupLoop_sumTotals; lia|]);
    (split; [by apply groupLoop_rowsSound|]);
    intros k; rewrite groupLoop_keys, lookup_empty; split;
    [intros [[? [=]]|?]; done|by right|intros [[? [=]]|?]; done|by right].
Qed.

(** X2. When no question carries a label that names an inherited object
    property, the [correct] column of the per-domain table, and that of
    the per-level table, sums to the [correctAnswers] counter of the
    general statistics. *)
Theorem group_tables_correct_sum (r : Results) :
  Forall (fun q => ordinaryLabel (dominio q)) (questions r) →
  Forall (fun q => ordinaryLabel (nivel q)) (questions r) →
  sumCorrect (domainStats r) = correctAnswers (computeStats r) ∧
  sumCorrect (levelStats r) = correctAnswers (computeStats r).
Proof.
  intros Hdomains Hlevels. unfold domainStats, levelStats. simpl.
  pose proof (groupLoop_sumCorrect dominio (answers r) (questions r) 0 ∅ (0, 0)
                Hdomains) as Hd.
  pose proof (groupLoop_sumCorrect nivel (answers r) (questions r) 0 ∅ (0, 0)
                Hlevels) as Hl.
  assert (sumCorrect ∅ = 0) as Hzero by done.
  simpl in *. lia.
Qed.

Lemma sample_labels_ordinary :
  Forall (fun q => ordinaryLabel (dominio q)) (questions sampleResults) ∧
  Forall (fun q => ordinaryLabel (nivel q)) (questions sampleResults).
Proof.
  split; (eapply (bool_decide_unpack _); vm_compute; exact I).
Qed.

Lemma group_tables_correct_sum_witness :
  sumCorrect (domainStats sampleResults) = 1 ∧
  sumCorrect (levelStats sampleResults) = 1.
Proof.
  exact (group_tables_correct_sum sampleResults
           (proj1 sample_labels_ordinary) (proj2 sample_labels_ordinary)).
Defined.

Example sample_domainStats :
  domainStats sampleResults !! "preparar-datos"
    = Some {| groupTotal := 1; groupCorrect := 1 |} ∧
  domainStats sampleResults !! "modelar-datos"
    = Some {| groupTotal := 1; groupCorrect := 0 |} ∧
  size (domainStats sampleResults) = 3.
Proof. vm_compute. repeat split. Qed.

(** A question filed under [constructor] gets no row, and its right
    answer is missing from the [correct] column. *)
Example inherited_label_has_no_row :
  let r := {| questions :=
                [ {| id := "q9"; respuestaCorrecta := 1; dominio := "constructor";
                     nivel := "avanzado"; subdominio := None; formato := None;
                     trampaComun := None |} ];
              answers := {[ 0 := 1%Z ]};
              timeElapsed := 5; configDomain := None |} in
  domainStats r = ∅ ∧ correctAnswers (computeStats r) = 1 ∧
  sumCorrect (levelStats r) = 1.
Proof. vm_compute. repeat split. Qed.

(** ** The figures the effect reports and the figures the screen shows *)

Lemma keyIsCorrect_in_range (qs : list Question) (ans : gmap nat Z) :
  Forall (is_Some ∘ keyIsCorrect qs) (map_to_list ans) ↔
  ∀ index : nat, index ∈ dom ans → index < length qs.
Proof.
  rewrite Forall_forall. split.
  - intros Hall index [a Ha]%elem_of_dom.
    specialize (Hall (index, a)). rewrite elem_of_map_to_list in Hall.
    specialize (Hall Ha). unfold keyIsCorrect in Hall. simpl in Hall.
    destruct (qs !! index) eqn:Hq; [|by destruct Hall].
    by apply lookup_lt_Some in Hq.
  - intros Hkeys [index a] Hin%elem_of_map_to_list.
    assert (index < length qs) as Hlt by (apply Hkeys, elem_of_dom; eauto).
    apply lookup_lt_is_Some in Hlt as [question Hq].
    unfold keyIsCorrect. simpl. rewrite Hq. simpl. eauto.
Qed.

Lemma flags_count {A} (f : A → option bool) (l : list A) (flags : list bool) :
  Forall2 (fun x y => f x = Some y) l flags →
  length (filter (fun b => b = true) flags)
  = length (filter (fun x => f x = Some true) l).
Proof.
  induction 1 as [|x b l flags Hx _ IH]; [done|].
  rewrite !filter_cons, Hx.
  destruct b; repeat case_decide; simplify_eq; simpl; by rewrite ?IH.
Qed.

(** X3. When every key of [answers] is a question index, the
    [correctAnswers] figure the effect passes to [updateProgressAfterQuiz]
    is the [correctAnswers] counter the screen displays. *)
Theorem reported_correct_is_displayed_correct (r : Results) :
  (∀ index : nat, index ∈ dom (answers r) → index < length (questions r)) →
  countCorrectKeys r = Some (correctAnswers (computeStats r)).
Proof.
  intros Hkeys. unfold countCorrectKeys.
  apply keyIsCorrect_in_range, mapM_is_Some_2 in Hkeys as [flags Hflags].
  rewrite Hflags. simpl. f_equal.
  apply mapM_Some_1 in Hflags.
  rewrite (flags_count _ _ _ Hflags). symmetry. apply countLoop_good.
Qed.

Lemma reported_correct_is_displayed_correct_witness :
  countCorrectKeys sampleResults = Some 1.
Proof.
  exact (reported_correct_is_displayed_correct sampleResults sample_keys_in_range).
Defined.

(** X4. When [answers] has a key that is not a question index, a run of
    the effect on a mounted component that has not processed this quiz
    makes the per-question calls and then throws while it counts the right
    answers: [updateProgressAfterQuiz] is not called, no event is
    dispatched, no achievement check is scheduled, and the component is
    unmounted. *)
Theorem foreign_key_loses_progress_update (st : Component) (r : Results)
    (key : nat) :
  key ∈ dom (answers r) → length (questions r) ≤ key →
  unmounted st = false →
  processedQuizId st ≠ Some (quizIdOf r) →
  let st' := runEffect st (Some r) in
  countCorrectKeys r = None ∧
  calls st' = calls st ++ perQuestionCalls r ∧
  unmounted st' = true.
Proof.
  intros Hin Hout Hmounted Hnew st'.
  assert (countCorrectKeys r = None) as Hthrow.
  { unfold countCorrectKeys.
    destruct (mapM _ _) as [flags|] eqn:Hflags; [|done].
    assert (is_Some (mapM (keyIsCorrect (questions r)) (map_to_list (answers r))))
      as Hsome by eauto.
    apply mapM_is_Some_1 in Hsome.
    pose proof (proj1 (keyIsCorrect_in_range _ _) Hsome key Hin). lia. }
  split; [done|]. subst st'. unfold runEffect.
  rewrite Hmounted, decide_False by done. by rewrite Hthrow.
Qed.

Definition strayResults : Results :=
  {| questions := [q1]; answers := {[ 0 := 2%Z; 5 := 1%Z ]};
     timeElapsed := 10; configDomain := None |}.

Lemma foreign_key_loses_progress_update_witness :
  calls (runEffect mount (Some strayResults)) = calls mount ++ perQuestionCalls strayResults ∧
  unmounted (runEffect mount (Some strayResults)) = true.
Proof.
  refine (proj2 (foreign_key_loses_progress_update mount strayResults 5 _ _ _ _)).
  - apply elem_of_dom. by exists 1%Z.
  - simpl. lia.
  - reflexivity.
  - discriminate.
Defined.

(** ** The per-question calls and details *)









Lemma details_counts (r : Results) (qs : list Question) : ∀ (offset : nat) acc,
  length (filter (fun d => correct d = true)
            (imap (fun i question =>
                     {| detailId := id question;
                        detailDomain := dominio question;
                        detailLevel := nivel question;
                        correct :=
                          bool_decide (answers r !! (offset + i)
                                       = Some (respuestaCorrecta question));
                        detailTimeSpent := timeSpentOf r |}) qs))
  + acc.1 = (countLoop (answers r) qs offset acc).1.
Proof.
  induction qs as [|question rest IH]; intros offset acc; [simpl; lia|].
  rewrite imap_cons. cbn [countLoop].
  rewrite (imap_ext _ (fun i question =>
                     {| detailId := id question;
                        detailDomain := dominio question;
                        detailLevel := nivel question;
                        correct :=
                          bool_decide (answers r !! (S offset + i)
                                       = Some (respuestaCorrecta question));
                        detailTimeSpent := timeSpentOf r |}) rest).
  2:{ intros i q _. simpl. by replace (offset + S i) with (S (offset + i)) by lia. }
  specialize (IH (S offset) (countStep (answers r) question offset acc)).
  rewrite countStep_correct in IH.
  rewrite filter_cons. cbn [correct].
  replace (offset + 0) with offset by lia.
  case_bool_decide as Hans.
  - rewrite decide_True by done. cbn [length]. lia.
  - rewrite decide_False by done. lia.
Qed.

Lemma imap_detailId (qs : list Question) :
  ∀ f : nat → Question → QuestionDetail,
  (∀ i q, detailId (f i q) = id q) → detailId <$> imap f qs = id <$> qs.
Proof.
  induction qs as [|q rest IH]; intros f Hf; [done|].
  rewrite imap_cons. simpl. f_equal; [apply Hf|].
  apply IH. intros i q'. apply Hf.
Qed.

(** X6. The [questionDetails] handed to [updateProgressAfterQuiz] has one
    entry per question, in question order, and as many entries flagged
    [correct] as the [correctAnswers] counter of the screen. *)
Theorem question_details_match_counters (r : Results) :
  detailId <$> questionDetailsOf r = id <$> questions r ∧
  length (filter (fun d => correct d = true) (questionDetailsOf r))
  = correctAnswers (computeStats r).
Proof.
  split.
  - unfold questionDetailsOf. by apply imap_detailId.
  - pose proof (details_counts r (questions r) 0 (0, 0)) as Hcount.
    unfold questionDetailsOf. simpl in *. lia.
Qed.

(** ** The queue of achievement popups *)

Lemma popupStep_order (p : Popups) (e : PopupEvent) :
  shown (popupStep p e) ++ achievementQueue (popupStep p e)
  = shown p ++ achievementQueue p.
Proof.
  destruct e; simpl; [|done]. unfold popupEffect.
  destruct p as [[|first rest] [current|] log]; simpl; try done.
  by rewrite <-(assoc_L (++)).
Qed.

Lemma popupStep_current (p : Popups) (e : PopupEvent) :
  (∀ a, currentAchievement p = Some a → last (shown p) = Some a) →
  ∀ a, currentAchievement (popupStep p e) = Some a →
       last (shown (popupStep p e)) = Some a.
Proof.
  intros Hcur a. destruct e; simpl; [|done]. unfold popupEffect.
  destruct p as [[|first rest] [current|] log]; simpl in *; try apply Hcur.
  intros [= ->]. by rewrite last_snoc.
Qed.

Fixpoint showAll (n : nat) : list PopupEvent :=
  match n with
  | O => []
  | S n' => EffectRuns :: PopupClosed :: showAll n'
  end.

Lemma showAll_run (queue : list string) : ∀ shownSoFar,
  foldl popupStep {| achievementQueue := queue; currentAchievement := None;
                     shown := shownSoFar |} (showAll (length queue))
  = {| achievementQueue := []; currentAchievement := None;
       shown := shownSoFar ++ queue |}.
Proof.
  induction queue as [|first rest IH]; intros shownSoFar; simpl.
  - by rewrite app_nil_r.
  - unfold handleAchievementClose. simpl. rewrite IH.
    by rewrite <-(assoc_L (++)).
Qed.

(** X7. The popup queue shows the unlocked achievements one at a time and
    in order: whatever the order of effect runs and popup closings,
    [shown ++ achievementQueue] stays the list that was unlocked and the
    popup on screen is the last one shown; closing each popup in turn
    shows them all. *)
Theorem popups_show_each_achievement_once (unlocked : list string)
    (events : list PopupEvent) :
  let p := foldl popupStep (startPopups unlocked) events in
  shown p ++ achievementQueue p = unlocked ∧
  (∀ a, currentAchievement p = Some a → last (shown p) = Some a) ∧
  foldl popupStep (startPopups unlocked) (showAll (length unlocked))
  = {| achievementQueue := []; currentAchievement := None; shown := unlocked |}.
Proof.
  simpl. split; [|split].
  - assert (∀ p, shown (foldl popupStep p events) ++
                 achievementQueue (foldl popupStep p events)
                 = shown p ++ achievementQueue p) as Hinv.
    { induction events as [|e rest IH]; intros p; [done|].
      simpl. rewrite IH. apply popupStep_order. }
    by rewrite Hinv.
  - assert (∀ p, (∀ a, currentAchievement p = Some a → last (shown p) = Some a) →
                 ∀ a, currentAchievement (foldl popupStep p events) = Some a →
                      last (shown (foldl popupStep p events)) = Some a) as Hinv.
    { induction events as [|e rest IH]; intros p Hp; [done|].
      simpl. apply IH. by apply popupStep_current. }
    apply Hinv. intros a [=].
  - apply (showAll_run unlocked []).
Qed.

(** ** What the quiz identifier identifies *)

Definition underscore : ascii := ascii_of_nat 95.

Lemma id_time_count_inj (a a' : string) (t t' : N) (n n' : nat) :
  a +:+ "_" +:+ pretty t +:+ "_" +:+ pretty n
  = a' +:+ "_" +:+ pretty t' +:+ "_" +:+ pretty n' →
  a = a' ∧ t = t' ∧ n = n'.
Proof.
  assert (∀ (b : string) (u : N) (m : nat),
            b +:+ "_" +:+ pretty u +:+ "_" +:+ pretty m
            = (b +:+ String underscore (pretty u)) +:+ String underscore (pretty m))
    as Hshape by (intros; by rewrite Text.app_assoc).
  rewrite !Hshape. intros Heq.
  apply (Text.split_right Text.isDigit) in Heq as [Heq Hn];
    [|done|apply Text.pretty_nat_digits..].
  apply (Text.split_right Text.isDigit) in Heq as [Ha Ht];
    [|done|apply Text.pretty_N_digits..].
  by apply (inj pretty) in Hn, Ht.
Qed.

(** X8. The identifier under which the effect remembers a quiz determines
    exactly three things: the id of the first question (or that there is
    none), [timeElapsed] and the number of questions.  Results that agree
    on these three, whatever their answers, count as the same quiz. *)
Theorem quizId_identifies (r1 r2 : Results) :
  quizIdOf r1 = quizIdOf r2 ↔
  id <$> head (questions r1) = id <$> head (questions r2) ∧
  timeElapsed r1 = timeElapsed r2 ∧
  length (questions r1) = length (questions r2).
Proof.
  unfold quizIdOf. split.
  - intros (Hid & Ht & Hn)%id_time_count_inj. split; [|done].
    destruct (questions r1) as [|q1 rest1], (questions r2) as [|q2 rest2];
      simpl in *; congruence.
  - intros (Hid & -> & ->).
    destruct (questions r1) as [|q1 rest1], (questions r2) as [|q2 rest2];
      simpl in *; congruence.
Qed.

(** The same questions and the same elapsed time with another answer
    sheet: not processed again. *)
Example same_id_other_answers :
  let retry := {| questions := questions sampleResults;
                  answers := {[ 0 := 2%Z; 1 := 0%Z; 2 := 1%Z ]};
                  timeElapsed := timeElapsed sampleResults;
                  configDomain := None |} in
  runEffect (runEffect mount (Some sampleResults)) (Some retry)
  = runEffect mount (Some sampleResults).
Proof. vm_compute. reflexivity. Qed.

(** ** formatTime *)

(** X9. [formatTime] shows different durations differently: the text
    determines the number of seconds. *)
Theorem formatTime_inj (a b : N) : formatTime a = formatTime b ↔ a = b.
Proof.
  split; [|by intros ->]. unfold formatTime. intros Heq.
  apply (Text.split_left Text.isDigit) in Heq as [Hmin Heq];
    [|apply Text.pretty_N_digits..|done|done].
  apply (inj pretty) in Hmin.
  apply String.app_inj in Heq.
  apply (Text.split_left Text.isDigit) in Heq as [Hsec _];
    [|apply Text.pretty_N_digits..|done|done].
  apply (inj pretty) in Hsec.
  rewrite (N.div_mod a 60), (N.div_mod b 60) by done. lia.
Qed.

Example formatTime_sample :
  formatTime 90 = "1m 30s" ∧ formatTime 0 = "0m 0s" ∧ formatTime 3599 = "59m 59s".
Proof. vm_compute. repeat split. Qed.

End ResultsScreenProps.

(* ===================================================================== *)
(** * Properties of the progress service *)
(* ===================================================================== *)

Module ProgressServiceProps.
Import ProgressService.

Definition sampleProgress : Progress :=
  {| totalPoints := Some 100%Z; totalXP := Some 250%Z;
     quizzesTaken := Some 1%Z;
     answeredQuestions := Some ["q1"; "q2"];
     achievements := Some ["first_quiz"];
     missions := Some {[ "m1" := "available" ]};
     questionTracking := {[ "q1" := 1%Z; "q2" := 2%Z ]};
     checksum := None |}.

Definition sampleData : option ProgressData :=
  Some {| progress := Some sampleProgress |}.

Definition noOptions : Options := {| reason := None; force := false |}.

(** [p] with its achievement list, mission map and question tracking
    replaced. *)
Definition withCollections (p : Progress) (newAchievements : option (list string))
    (newMissions : option (gmap string string))
    (newTracking : gmap string Z) : Progress :=
  {| totalPoints := totalPoints p; totalXP := totalXP p;
     quizzesTaken := quizzesTaken p;
     answeredQuestions := answeredQuestions p;
     achievements := newAchievements; missions := newMissions;
     questionTracking := newTracking;
     checksum := checksum p |}.

Example sample_hashInput :
  hashInput sampleData 1999 =
  "{" +:+ quote +:+ "totalPoints" +:+ quote +:+ ":100," +:+
  quote +:+ "quizzesTaken" +:+ quote +:+ ":1," +:+
  quote +:+ "answeredQuestions" +:+ quote +:+ ":2," +:+
  quote +:+ "timestamp" +:+ quote +:+ ":1}".
Proof. vm_compute. reflexivity. Qed.

Example sample_rollingHash : rollingHash "abc" = "22ci".
Proof. vm_compute. reflexivity. Qed.

(** ** Strings *)

Lemma append_nonempty (s : string) (c : ascii) :
  s +:+ String c EmptyString ≠ EmptyString.
Proof. by destruct s. Qed.

Lemma append_last_inj (c : ascii) : ∀ s1 s2 : string,
  s1 +:+ String c EmptyString = s2 +:+ String c EmptyString → s1 = s2.
Proof.
  induction s1 as [|a1 s1 IH]; intros [|a2 s2] Heq; [done| | |].
  - injection Heq as _ Hrest. symmetry in Hrest.
    by apply append_nonempty in Hrest.
  - injection Heq as _ Hrest. by apply append_nonempty in Hrest.
  - injection Heq as -> Hrest. f_equal. by apply IH.
Qed.

Lemma concat_snoc_inj (sep : string) (fields : list string) (a b : string) :
  String.concat sep (fields ++ [a]) = String.concat sep (fields ++ [b]) → a = b.
Proof.
  induction fields as [|x rest IH]; [done|].
  destruct rest as [|y rest].
  - simpl. intros Heq. by do 2 apply String.app_inj in Heq.
  - intros Heq. apply IH.
    change (x +:+ sep +:+ String.concat sep ((y :: rest) ++ [a])
            = x +:+ sep +:+ String.concat sep ((y :: rest) ++ [b])) in Heq.
    by do 2 apply String.app_inj in Heq.
Qed.

Lemma jsonField_inj key (v1 v2 : Z) :
  jsonField key (Some v1) = jsonField key (Some v2) → v1 = v2.
Proof.
  unfold jsonField. intros Heq. injection Heq as Heq.
  do 4 apply String.app_inj in Heq. by apply (inj pretty) in Heq.
Qed.

Lemma lengthOf_length {A} (xs ys : option (list A)) :
  length <$> xs = length <$> ys → lengthOf xs = lengthOf ys.
Proof.
  unfold lengthOf. destruct xs, ys; simpl; intros Heq; simplify_eq; [|done].
  by rewrite Heq.
Qed.

(** ** generateDataHash and the clock *)

(** Within one wall-clock second the hash input is a function of the
    three progress fields. *)
Lemma hashInput_same_second data (t1 t2 : Z) :
  (t1 `div` 1000 = t2 `div` 1000)%Z → hashInput data t1 = hashInput data t2.
Proof. unfold hashInput. by intros ->. Qed.

(** Across a second boundary the hash input of one and the same payload
    changes. *)
Lemma hashInput_other_second data (t1 t2 : Z) :
  (t1 `div` 1000 ≠ t2 `div` 1000)%Z → hashInput data t1 ≠ hashInput data t2.
Proof.
  intros Hsec Heq. apply Hsec. unfold hashInput, jsonObject in Heq.
  apply String.app_inj, append_last_inj in Heq.
  rewrite !(assoc_L (++)) in Heq.
  change (jsonField "timestamp" (Some (t1 `div` 1000)%Z))
    with [quote +:+ "timestamp" +:+ quote +:+ ":" +:+ pretty (t1 `div` 1000)%Z] in Heq.
  change (jsonField "timestamp" (Some (t2 `div` 1000)%Z))
    with [quote +:+ "timestamp" +:+ quote +:+ ":" +:+ pretty (t2 `div` 1000)%Z] in Heq.
  apply concat_snoc_inj in Heq.
  do 4 apply String.app_inj in Heq. by apply (inj pretty) in Heq.
Qed.

(** The recommended hash has no clock among its arguments and reads the
    payload only. *)
Lemma generateDataHashRecommended_fields simpleHash (p1 p2 : Progress) :
  totalPoints p1 = totalPoints p2 →
  quizzesTaken p1 = quizzesTaken p2 →
  length <$> answeredQuestions p1 = length <$> answeredQuestions p2 →
  length <$> achievements p1 = length <$> achievements p2 →
  size (default ∅ (missions p1)) = size (default ∅ (missions p2)) →
  generateDataHashRecommended simpleHash (Some {| progress := Some p1 |})
  = generateDataHashRecommended simpleHash (Some {| progress := Some p2 |}).
Proof.
  intros Hpoints Hquizzes Hanswered Hach Hmis.
  unfold generateDataHashRecommended, hashInputRecommended, chain.
  simpl. rewrite Hpoints, Hquizzes, Hmis.
  by rewrite (lengthOf_length _ _ Hanswered), (lengthOf_length _ _ Hach).
Qed.

(** C2. The fingerprint that [generateDataHash] computes is not a function
    of the payload alone: for one and the same payload the hashed string
    differs between [Date.now() = 1999] and [Date.now() = 2000], and with
    the rolling hash of the report so does the hash of the sample
    payload. *)
Theorem generateDataHash_depends_on_clock :
  (∀ data, hashInput data 1999 ≠ hashInput data 2000) ∧
  generateDataHash rollingHash sampleData 1999
  ≠ generateDataHash rollingHash sampleData 2000.
Proof.
  split.
  - intros data. by apply hashInput_other_second.
  - vm_compute. discriminate.
Qed.

(** ** generateDataHash and the collections *)

Lemma hashInput_fields (p1 p2 : Progress) (now : Z) :
  totalPoints p1 = totalPoints p2 →
  quizzesTaken p1 = quizzesTaken p2 →
  length <$> answeredQuestions p1 = length <$> answeredQuestions p2 →
  hashInput (Some {| progress := Some p1 |}) now
  = hashInput (Some {| progress := Some p2 |}) now.
Proof.
  intros Hpoints Hquizzes Hanswered. unfold hashInput, chain.
  simpl. rewrite Hpoints, Hquizzes.
  by rewrite (lengthOf_length _ _ Hanswered).
Qed.

(** C3. [generateDataHash] does not read the achievements, the missions or
    the question tracking: whatever replaces them in a payload, the
    fingerprint taken at the same instant is the same. *)
Theorem generateDataHash_ignores_collections (simpleHash : string → string)
    (p : Progress) (newAchievements : option (list string))
    (newMissions : option (gmap string string)) (newTracking : gmap string Z)
    (now : Z) :
  generateDataHash simpleHash
    (Some {| progress :=
               Some (withCollections p newAchievements newMissions newTracking) |})
    now
  = generateDataHash simpleHash (Some {| progress := Some p |}) now.
Proof.
  unfold generateDataHash. apply (f_equal simpleHash).
  by apply hashInput_fields.
Qed.

(** The payload of [sampleData] with another achievement unlocked and a
    mission completed. *)
Example sample_collision :
  let changed :=
    withCollections sampleProgress (Some ["first_quiz"; "streak_3"])
      (Some {[ "m1" := "completed" ]}) (questionTracking sampleProgress) in
  changed ≠ sampleProgress ∧
  generateDataHash rollingHash (Some {| progress := Some changed |}) 1999
  = generateDataHash rollingHash sampleData 1999.
Proof.
  split; [|unfold generateDataHash; f_equal; by apply hashInput_fields].
  intros Heq. apply (f_equal achievements) in Heq. discriminate.
Qed.

(** The recommended hash counts achievements and missions: it separates
    the two payloads above only because an achievement was added. *)
Example recommended_counts_only :
  generateDataHashRecommended rollingHash
    (Some {| progress := Some (withCollections sampleProgress
                (Some ["streak_3"]) (Some {[ "m1" := "completed" ]}) ∅) |})
  = generateDataHashRecommended rollingHash sampleData.
Proof. vm_compute. reflexivity. Qed.

(** ** saveProgress: the dedup test and the queue *)

(** The dedup test is the equality of [lastSaveHash] with the hash taken
    at call time, and nothing else: a hit returns the skipped result and
    leaves the service as it was. *)
Lemma saveProgress_skips simpleHash MIN stampAtStart svc data options now :
  lastSaveHash svc = Some (generateDataHash simpleHash data now) →
  saveProgress simpleHash MIN stampAtStart svc data options now = (svc, Skipped).
Proof.
  intros Hhit. unfold saveProgress, saveProgressWith. by rewrite decide_True.
Qed.

(** A miss parks the request in the queue or enters [performSave]. *)
Lemma saveProgress_miss simpleHash MIN stampAtStart svc data options now :
  lastSaveHash svc ≠ Some (generateDataHash simpleHash data now) →
  let after := saveProgress simpleHash MIN stampAtStart svc data options now in
  (after.2 = Pending ∧ length (saveQueue after.1) = S (length (saveQueue svc))) ∨
  (after.2 = Started ∧ length (running after.1) = S (length (running svc))).
Proof.
  intros Hmiss. unfold saveProgress, saveProgressWith, startSave.
  rewrite decide_False by done.
  case_decide; simpl; rewrite length_app; simpl; [left|right]; split; (done || lia).
Qed.

(** The two quoted tests read [lastSaveHash] and [lastSaveTime] only: a
    request that passes both is handed on with the service as it was,
    whatever is queued and whatever is in flight. *)
Lemma saveProgressWith_passes simpleHash MIN continuation svc data options now :
  lastSaveHash svc ≠ Some (generateDataHash simpleHash data now) →
  (MIN ≤ now - lastSaveTime svc)%Z →
  saveProgressWith simpleHash MIN continuation svc data options now
  = continuation svc data options (generateDataHash simpleHash data now) now.
Proof.
  intros Hmiss Hlate. unfold saveProgressWith.
  rewrite decide_False by done. by rewrite decide_False by lia.
Qed.




(** C4. [save(S)] at [Date.now() = 5999], run to completion, and [save(S)]
    again one millisecond later, without [force]: the second call is not
    skipped, its request is put in the queue for a later write.  (Interval
    of one second, rolling hash of the report; either place of the
    [lastSaveTime] stamp.) *)
Theorem dedup_missed_one_millisecond_later (stampAtStart : bool)
    (generateChecksum : option Progress → string) :
  let committed :=
    run rollingHash generateChecksum 1000 stampAtStart newService
      [ Save sampleData noOptions 5999; Finish 0 5999 ] in
  let again :=
    saveProgress rollingHash 1000 stampAtStart committed sampleData noOptions 6000 in
  lastSaveHash committed = Some (generateDataHash rollingHash sampleData 5999) ∧
  running committed = [] ∧
  again.2 = Pending ∧
  entryData <$> saveQueue again.1 = [sampleData].
Proof.
  destruct stampAtStart; vm_compute; repeat split; reflexivity.
Qed.

(** In one and the same second, after the first call has finished, the
    second call is skipped and changes nothing. *)
Example dedup_hit_same_second :
  let committed :=
    run rollingHash (fun _ => "sum") 1000 true newService
      [ Save sampleData noOptions 5000; Finish 0 5100 ] in
  saveProgress rollingHash 1000 true committed sampleData noOptions 5900
  = (committed, Skipped).
Proof. apply saveProgress_skips. vm_compute. reflexivity. Qed.

(** With the recommended write lock no schedule of calls, resumptions and
    completions has two bodies in flight. *)
Definition lockInvariant (l : Locked) : Prop :=
  length (holders l) ≤ 1 ∧ (writeLock l = None → holders l = []).

Lemma tryAcquire_invariant l data :
  lockInvariant l → lockInvariant (tryAcquire l data).
Proof.
  intros [Hle Hfree]. unfold tryAcquire, lockInvariant.
  destruct (writeLock l) as [promise|]; simpl; [done|].
  rewrite Hfree by done. simpl. split; [lia|done].
Qed.

Lemma lockedStep_invariant l e :
  lockInvariant l → lockInvariant (lockedStep l e).
Proof.
  intros Hinv. destruct e as [data|k|j]; simpl.
  - by apply tryAcquire_invariant.
  - destruct (waiting l !! k) as [[promise data]|]; [|done].
    case_decide; [|done]. by apply tryAcquire_invariant.
  - destruct (holders l !! j) as [[promise data]|] eqn:Hjob; [|done].
    destruct Hinv as [Hle _]. unfold lockInvariant. simpl.
    apply lookup_lt_Some in Hjob.
    destruct (holders l) as [|h [|h' rest]]; simpl in *; [lia| |lia].
    destruct j; simpl; [split; [lia|done]|lia].
Qed.

(** X16. With the recommended write lock, at most one [performSave] body
    is in flight after any sequence of calls, resumptions and
    completions. *)
Lemma locked_at_most_one (events : list LockEvent) :
  length (holders (foldl lockedStep newLocked events)) ≤ 1.
Proof.
  assert (lockInvariant newLocked) as Hinit by (split; simpl; [lia|done]).
  revert Hinit. generalize newLocked.
  induction events as [|e rest IH]; intros l Hinv; simpl.
  - by destruct Hinv.
  - apply IH. by apply lockedStep_invariant.
Qed.

Example locked_sample :
  let l := foldl lockedStep newLocked
             [Call sampleData; Call None; Resume 0; Done 0; Resume 0] in
  holders l = [(1, None)] ∧ waiting l = [].
Proof. vm_compute. split; reflexivity. Qed.

(** ** performSave and a corrupt head *)

(** The head invariant of the data model: the checksum in the head is the
    checksum of the snapshot the head refers to. *)
Definition headConsistent (generateChecksum : option Progress → string)
    (st : Store) : Prop :=
  ∀ head, localStorage st !! PROGRESS_HEAD = Some (HeadItem head) →
    headChecksum head =
    Some (generateChecksum
            (missionSnapshots st !! snapshotId head ≫= snapshotProgress)).

Definition oldSnapshot : Snapshot := {| snapshotProgress := Some sampleProgress |}.

(** A store whose head carries a checksum that is not the one of the
    snapshot it points to (the right one with a character appended). *)
Definition corruptStore (generateChecksum : option Progress → string) : Store :=
  {| localStorage :=
       {[ PROGRESS_HEAD :=
            HeadItem {| headChecksum :=
                          Some (generateChecksum (Some sampleProgress) +:+ "x");
                        snapshotId := "snap-1" |} ]};
     missionSnapshots := {[ "snap-1" := oldSnapshot ]};
     console := []; emitted := []; telemetry := [] |}.

Lemma append_char_neq (s : string) (c : ascii) : s +:+ String c EmptyString ≠ s.
Proof. induction s as [|a s IH]; [done|]. intros Heq. by injection Heq. Qed.

Lemma corruptStore_inconsistent generateChecksum :
  ¬ headConsistent generateChecksum (corruptStore generateChecksum).
Proof.
  intros Hcons. unfold headConsistent, corruptStore in Hcons. simpl in Hcons.
  specialize (Hcons _ (lookup_singleton_eq _ _)). simpl in Hcons.
  rewrite lookup_singleton_eq in Hcons. simpl in Hcons.
  injection Hcons as Hcons. by apply append_char_neq in Hcons.
Qed.

(** The quoted statements of [performSave] write one [localStorage] key:
    every other key, the snapshots and the three reporting channels are
    left as they were, in every store. *)
Lemma performSave_frame generateChecksum st snapshotPayload headData :
  let st' := (performSave generateChecksum st snapshotPayload headData).1 in
  localStorage st' !! PROGRESS_HEAD = Some (HeadItem headData) ∧
  (∀ key, key ≠ PROGRESS_HEAD → localStorage st' !! key = localStorage st !! key) ∧
  missionSnapshots st' = missionSnapshots st ∧
  console st' = console st ∧ emitted st' = emitted st ∧
  telemetry st' = telemetry st.
Proof.
  simpl. split; [apply lookup_insert_eq|]. repeat split.
  intros key Hkey. by rewrite lookup_insert_ne.
Qed.

(** C5. [performSave] on a store whose head checksum does not match the
    referenced snapshot, for every payload and every new head: the head is
    overwritten, no copy of the old snapshot is put under the quarantine
    key and nothing is logged or emitted.  The variant recommended in the
    report archives the snapshot under [cxcc_corrupted_backup] and logs an
    error before the same overwrite. *)
Theorem performSave_overwrites_corrupt_head
    (generateChecksum : option Progress → string)
    (snapshotPayload : Snapshot) (headData : HeadData) :
  let st := corruptStore generateChecksum in
  let st' := (performSave generateChecksum st snapshotPayload headData).1 in
  let checked :=
    (performSaveRecommended generateChecksum st snapshotPayload headData).1 in
  ¬ headConsistent generateChecksum st ∧
  localStorage st' !! PROGRESS_HEAD = Some (HeadItem headData) ∧
  localStorage st' !! CORRUPTED_BACKUP = None ∧
  console st' = [] ∧ emitted st' = [] ∧ telemetry st' = [] ∧
  localStorage checked !! PROGRESS_HEAD = Some (HeadItem headData) ∧
  localStorage checked !! CORRUPTED_BACKUP = Some (SnapshotItem (Some oldSnapshot)) ∧
  console checked = ["⚠️ Datos corruptos detectados, creando backup"].
Proof.
  intros st st' checked.
  split; [apply corruptStore_inconsistent|].
  split; [apply lookup_insert_eq|].
  split; [subst st'; simpl; by rewrite lookup_insert_ne|].
  split; [done|]. split; [done|]. split; [done|].
  assert (verifyCurrentHead generateChecksum st =
          consoleLog "⚠️ Datos corruptos detectados, creando backup"
            (setItem CORRUPTED_BACKUP (SnapshotItem (Some oldSnapshot)) st))
    as Hverify.
  { unfold verifyCurrentHead. subst st. simpl.
    rewrite lookup_singleton_eq. simpl.
    rewrite decide_False by apply append_nonempty.
    rewrite lookup_singleton_eq. simpl.
    rewrite decide_False; [done|].
    intros Heq. symmetry in Heq. by apply append_char_neq in Heq. }
  subst checked. unfold performSaveRecommended. rewrite Hverify. simpl.
  split; [apply lookup_insert_eq|]. split; [|done].
  rewrite lookup_insert_ne by done. by rewrite lookup_insert_eq.
Qed.

(** ** ensureDB when the database cannot be opened *)

(** C7. With [dbReady] rejected, [ensureDB] returns no database, now and
    on every later call, and writes a console warning; nothing is emitted,
    so no degraded-mode signal reaches a listener.  The variant recommended
    in the report emits [storage-degraded]. *)
Theorem ensureDB_failure_is_silent (message : string) (st : Store) :
  let conn := {| db := None; dbReady := Rejected message |} in
  let outcome := ensureDB conn st in
  let later := ensureDB outcome.1.2 outcome.2 in
  outcome.1.1 = None ∧ later.1.1 = None ∧
  emitted outcome.2 = emitted st ∧ telemetry outcome.2 = telemetry st ∧
  emitted later.2 = emitted st ∧
  console outcome.2 = console st ++ ["IndexedDB no disponible: " +:+ message] ∧
  emitted (ensureDBRecommended conn st).2 = emitted st ++ ["storage-degraded"].
Proof. simpl. repeat split. Qed.

(** ** What the hashed string determines *)

(** One serialised property, ["key":value]. *)
Definition field (kv : string * Z) : string :=
  quote +:+ kv.1 +:+ quote +:+ ":" +:+ pretty kv.2.

Definition optField (key : string) (value : option Z) : list (string * Z) :=
  match value with
  | Some v => [(key, v)]
  | None => []
  end.

(** What follows a property inside the braces. *)
Fixpoint sepTail (rest : list (string * Z)) : string :=
  match rest with
  | [] => "}"
  | kv :: rest' => "," +:+ field kv +:+ sepTail rest'
  end.

Definition body (fields : list (string * Z)) : string :=
  match fields with
  | [] => "}"
  | kv :: rest => field kv +:+ sepTail rest
  end.

Definition plainKey (kv : string * Z) : Prop :=
  Text.allChars Text.notQuote kv.1 = true.

Lemma jsonField_optField key value :
  jsonField key value = field <$> optField key value.
Proof. by destruct value. Qed.

Lemma concat_sepTail (kv : string * Z) (rest : list (string * Z)) :
  String.concat "," (field <$> (kv :: rest)) +:+ "}" = field kv +:+ sepTail rest.
Proof.
  revert kv. induction rest as [|kv' rest IH]; intros kv; [done|].
  change (String.concat "," (field <$> kv :: kv' :: rest))
    with (field kv +:+ "," +:+ String.concat "," (field <$> (kv' :: rest))).
  rewrite !Text.app_assoc, IH. done.
Qed.

Lemma jsonObject_body (fields : list (string * Z)) :
  jsonObject (field <$> fields) = "{" +:+ body fields.
Proof.
  unfold jsonObject. destruct fields as [|kv rest]; [done|].
  by rewrite concat_sepTail.
Qed.

Lemma sepTail_stops rest : Text.stopsAt Text.isNumeric (sepTail rest) = true.
Proof. by destruct rest. Qed.

Lemma field_split (kv kv' : string * Z) (t t' : string) :
  plainKey kv → plainKey kv' →
  Text.stopsAt Text.isNumeric t = true → Text.stopsAt Text.isNumeric t' = true →
  field kv +:+ t = field kv' +:+ t' → kv = kv' ∧ t = t'.
Proof.
  destruct kv as [k v], kv' as [k' v']. unfold plainKey, field. simpl.
  intros Hk Hk' Ht Ht'. rewrite !Text.app_assoc. intros Heq.
  apply String.app_inj in Heq.
  apply (Text.split_left Text.notQuote) in Heq as [-> Heq]; [|done..].
  do 2 apply String.app_inj in Heq.
  apply (Text.split_left Text.isNumeric) in Heq as [Hv ->];
    [|apply Text.pretty_Z_numeric..|done|done].
  by apply (inj pretty) in Hv as ->.
Qed.

Lemma sepTail_inj (r1 : list (string * Z)) : ∀ r2,
  Forall plainKey r1 → Forall plainKey r2 → sepTail r1 = sepTail r2 → r1 = r2.
Proof.
  induction r1 as [|kv r1 IH]; intros [|kv' r2] H1 H2 Heq; try done.
  simpl in Heq. apply String.app_inj in Heq.
  apply Forall_cons in H1 as [Hkv H1]. apply Forall_cons in H2 as [Hkv' H2].
  apply field_split in Heq as [-> Heq]; [|done|done|apply sepTail_stops..].
  f_equal. by apply IH.
Qed.

Lemma body_inj (l1 l2 : list (string * Z)) :
  Forall plainKey l1 → Forall plainKey l2 → body l1 = body l2 → l1 = l2.
Proof.
  destruct l1 as [|kv r1], l2 as [|kv' r2]; intros H1 H2 Heq; try done.
  simpl in Heq.
  apply Forall_cons in H1 as [Hkv H1]. apply Forall_cons in H2 as [Hkv' H2].
  apply field_split in Heq as [-> Heq]; [|done|done|apply sepTail_stops..].
  f_equal. by apply sepTail_inj.
Qed.

Lemma optField_plain key value :
  Text.allChars Text.notQuote key = true → Forall plainKey (optField key value).
Proof. intros Hkey. destruct value; repeat constructor. done. Qed.

Lemma optField_keys (P : string → Prop) key value :
  P key → Forall (fun kv => P kv.1) (optField key value).
Proof. intros Hkey. destruct value; repeat constructor. done. Qed.

(** A property that may be missing, in front of properties with other
    keys: the list tells whether it is there and with which value. *)
Lemma optField_app_inj key (o1 o2 : option Z) (r1 r2 : list (string * Z)) :
  Forall (fun kv => kv.1 ≠ key) r1 → Forall (fun kv => kv.1 ≠ key) r2 →
  optField key o1 ++ r1 = optField key o2 ++ r2 → o1 = o2 ∧ r1 = r2.
Proof.
  intros H1 H2. destruct o1 as [v1|], o2 as [v2|]; simpl; intros Heq.
  - by simplify_eq.
  - subst r2. apply Forall_cons in H2 as [Hne _]. by destruct Hne.
  - subst r1. apply Forall_cons in H1 as [Hne _]. by destruct Hne.
  - done.
Qed.

Ltac other_keys :=
  repeat (apply Forall_app; split); try apply Forall_nil;
  apply (optField_keys (fun k => k ≠ _)); discriminate.

(** X10. The string that [generateDataHash] hashes determines exactly
    [totalPoints], [quizzesTaken], the number of answered questions and
    the wall-clock second: two calls hash the same string if and only if
    they agree on these four. *)
Theorem hashInput_determines (d1 d2 : option ProgressData) (t1 t2 : Z) :
  hashInput d1 t1 = hashInput d2 t2 ↔
  chain d1 totalPoints = chain d2 totalPoints ∧
  chain d1 quizzesTaken = chain d2 quizzesTaken ∧
  lengthOf (chain d1 answeredQuestions) = lengthOf (chain d2 answeredQuestions) ∧
  (t1 `div` 1000 = t2 `div` 1000)%Z.
Proof.
  unfold hashInput. split; [|by intros (-> & -> & -> & ->)].
  rewrite !jsonField_optField, <-!fmap_app, !jsonObject_body.
  intros Heq. apply String.app_inj, body_inj in Heq;
    [|repeat (apply Forall_app; split); by apply optField_plain..].
  apply optField_app_inj in Heq as [Hpoints Heq]; [|other_keys..].
  apply optField_app_inj in Heq as [Hquizzes Heq]; [|other_keys..].
  apply optField_app_inj in Heq as [Hanswered Heq]; [|other_keys..].
  by simplify_eq/=.
Qed.

(** X11. The string that the recommended [generateDataHash] hashes
    determines exactly [totalPoints], [quizzesTaken] and the numbers of
    answered questions, of achievements and of missions. *)
Theorem hashInputRecommended_determines (d1 d2 : option ProgressData) :
  hashInputRecommended d1 = hashInputRecommended d2 ↔
  chain d1 totalPoints = chain d2 totalPoints ∧
  chain d1 quizzesTaken = chain d2 quizzesTaken ∧
  lengthOf (chain d1 answeredQuestions) = lengthOf (chain d2 answeredQuestions) ∧
  lengthOf (chain d1 achievements) = lengthOf (chain d2 achievements) ∧
  size (default ∅ (chain d1 missions)) = size (default ∅ (chain d2 missions)).
Proof.
  unfold hashInputRecommended. split; [|by intros (-> & -> & -> & -> & ->)].
  rewrite !jsonField_optField, <-!fmap_app, !jsonObject_body.
  intros Heq. apply String.app_inj, body_inj in Heq;
    [|repeat (apply Forall_app; split); by apply optField_plain..].
  apply optField_app_inj in Heq as [Hpoints Heq]; [|other_keys..].
  apply optField_app_inj in Heq as [Hquizzes Heq]; [|other_keys..].
  apply optField_app_inj in Heq as [Hanswered Heq]; [|other_keys..].
  apply optField_app_inj in Heq as [Hach Heq]; [|other_keys..].
  simplify_eq/=. repeat split; (done || lia).
Qed.

(** ** The rolling hash *)

Lemma toInt32_range (z : Z) : (- 2 ^ 31 ≤ toInt32 z < 2 ^ 31)%Z.
Proof.
  unfold toInt32.
  pose proof (Z.mod_pos_bound (z + 2 ^ 31) (2 ^ 32)) as Hbound. lia.
Qed.

Lemma toInt32_period (z k : Z) : toInt32 (z + k * 2 ^ 32) = toInt32 z.
Proof.
  unfold toInt32. f_equal.
  replace (z + k * 2 ^ 32 + 2 ^ 31)%Z with (z + 2 ^ 31 + k * 2 ^ 32)%Z by lia.
  apply Z_mod_plus_full.
Qed.

Lemma toInt32_unfold (z : Z) : ∃ k : Z, toInt32 z = (z + k * 2 ^ 32)%Z.
Proof.
  exists (- ((z + 2 ^ 31) `div` 2 ^ 32))%Z. unfold toInt32.
  rewrite Z.mod_eq by lia. lia.
Qed.

Definition charCode (c : ascii) : Z := Z.of_nat (nat_of_ascii c).

(** The polynomial [31^(n-1) c_1 + ... + 31 c_(n-1) + c_n] over the
    character codes, started from [acc]. *)
Fixpoint poly31 (acc : Z) (data : string) : Z :=
  match data with
  | EmptyString => acc
  | String c rest => poly31 (31 * acc + charCode c) rest
  end.

Lemma rollStep_wrapped (a : Z) (c : ascii) :
  rollStep (toInt32 a) c = toInt32 (31 * a + charCode c).
Proof.
  unfold rollStep. fold (charCode c).
  destruct (toInt32_unfold a) as [k ->].
  destruct (toInt32_unfold ((a + k * 2 ^ 32) * 32)) as [k' ->].
  replace ((a + k * 2 ^ 32) * 32 + k' * 2 ^ 32 - (a + k * 2 ^ 32) + charCode c)%Z
    with (31 * a + charCode c + (31 * k + k') * 2 ^ 32)%Z by lia.
  apply toInt32_period.
Qed.

Lemma rollFrom_wrapped (data : string) : ∀ a : Z,
  rollFrom (toInt32 a) data = toInt32 (poly31 a data).
Proof.
  induction data as [|c rest IH]; intros a; [done|].
  simpl. rewrite rollStep_wrapped. apply IH.
Qed.

(** X12. The hash loop of [generateQuizSignature], with its shift,
    subtraction and [hash & hash], computes the polynomial hash with
    multiplier 31 over the character codes, wrapped to a signed 32-bit
    integer; its value always lies in [-2^31, 2^31). *)
Theorem rolling_hash_is_poly31 (data : string) :
  rollFrom 0 data = toInt32 (poly31 0 data) ∧
  (- 2 ^ 31 ≤ rollFrom 0 data < 2 ^ 31)%Z.
Proof.
  assert (rollFrom 0 data = toInt32 (poly31 0 data)) as Heq.
  { apply (rollFrom_wrapped data 0). }
  split; [done|]. rewrite Heq. apply toInt32_range.
Qed.

(** ** performSave and the check before it *)

Lemma verifyCurrentHead_consistent generateChecksum st :
  headConsistent generateChecksum st → verifyCurrentHead generateChecksum st = st.
Proof.
  intros Hcons. unfold verifyCurrentHead.
  destruct (localStorage st !! PROGRESS_HEAD) as [[head|snapshot]|] eqn:Hhead;
    [|done..].
  rewrite (Hcons head Hhead). case_decide; [done|]. by rewrite decide_True.
Qed.

(** X14. On a store with no head, or with a head whose checksum is the
    checksum of the snapshot it refers to, the recommended [performSave]
    does exactly what [performSave] does: the quarantine key is left as it
    was and nothing is logged. *)
Theorem performSaveRecommended_on_sound_store
    (generateChecksum : option Progress → string) (st : Store)
    (snapshotPayload : Snapshot) (headData : HeadData) :
  headConsistent generateChecksum st →
  let checked := performSaveRecommended generateChecksum st snapshotPayload headData in
  checked = performSave generateChecksum st snapshotPayload headData ∧
  localStorage checked.1 !! CORRUPTED_BACKUP = localStorage st !! CORRUPTED_BACKUP ∧
  console checked.1 = console st.
Proof.
  intros Hcons checked. subst checked. unfold performSaveRecommended.
  rewrite verifyCurrentHead_consistent by done.
  split; [done|]. split; [|done].
  simpl. by rewrite lookup_insert_ne.
Qed.

(** A checksum over the counters only. *)
Definition countersChecksum (p : option Progress) : string :=
  pretty (default 0%Z (p ≫= totalPoints)) +:+ "/" +:+
  pretty (default 0%Z (p ≫= quizzesTaken)).

(** A store whose head carries the checksum of the snapshot it points
    to. *)
Definition soundStore : Store :=
  {| localStorage :=
       {[ PROGRESS_HEAD :=
            HeadItem {| headChecksum := Some (countersChecksum (Some sampleProgress));
                        snapshotId := "snap-1" |} ]};
     missionSnapshots := {[ "snap-1" := oldSnapshot ]};
     console := []; emitted := []; telemetry := [] |}.

Lemma soundStore_consistent : headConsistent countersChecksum soundStore.
Proof.
  intros head. unfold soundStore. simpl.
  rewrite lookup_singleton_eq. intros [= <-]. simpl.
  by rewrite lookup_singleton_eq.
Qed.

Lemma performSaveRecommended_on_sound_store_witness :
  let head := {| headChecksum := Some "200/2"; snapshotId := "snap-2" |} in
  let payload := {| snapshotProgress := Some emptyProgress |} in
  localStorage soundStore !! PROGRESS_HEAD
  = Some (HeadItem {| headChecksum := Some "100/1"; snapshotId := "snap-1" |}) ∧
  headConsistent countersChecksum soundStore ∧
  performSaveRecommended countersChecksum soundStore payload head
  = performSave countersChecksum soundStore payload head.
Proof.
  split; [apply lookup_singleton_eq|].
  split; [exact soundStore_consistent|].
  exact (proj1 (performSaveRecommended_on_sound_store countersChecksum soundStore
                  {| snapshotProgress := Some emptyProgress |}
                  {| headChecksum := Some "200/2"; snapshotId := "snap-2" |}
                  soundStore_consistent)).
Defined.

(** With a head that fails the check the two differ: the recommended
    variant has written the quarantine key. *)
Example performSaveRecommended_differs_on_corrupt_store :
  let head := {| headChecksum := Some "200/2"; snapshotId := "snap-2" |} in
  let payload := {| snapshotProgress := Some emptyProgress |} in
  performSaveRecommended countersChecksum (corruptStore countersChecksum) payload head
  ≠ performSave countersChecksum (corruptStore countersChecksum) payload head.
Proof.
  intros head payload Heq.
  apply (f_equal (fun out => console out.1)) in Heq. vm_compute in Heq.
  discriminate.
Qed.

(** ** ensureDB *)

(** X15. [ensureDB] settles: it returns what it leaves in [this.db], a
    second call returns the same, and once a database has been returned
    later calls change nothing and write nothing.  After a failure every
    call adds one more console warning. *)
Theorem ensureDB_settles (conn : Connection) (st : Store) :
  let first := ensureDB conn st in
  let second := ensureDB first.1.2 first.2 in
  db first.1.2 = first.1.1 ∧
  dbReady first.1.2 = dbReady conn ∧
  second.1.1 = first.1.1 ∧
  (is_Some first.1.1 → second = first) ∧
  (first.1.1 = None →
   length (console second.2) = S (length (console first.2)) ∧
   length (console first.2) = S (length (console st))).
Proof.
  destruct conn as [[handle|] [handle'|message]]; simpl;
    (split; [done|]); (split; [done|]); (split; [done|]);
    (split; [try done; by intros [? [=]]|]);
    intros Hnone; try discriminate;
    rewrite ?length_app; simpl; split; lia.
Qed.

(** ** The write lock: who holds it, who waits, who is done *)

(** The lock is free and nobody is in [performSave], or it holds the
    promise of the one body that is. *)
Definition lockMatchesHolder (l : Locked) : Prop :=
  match writeLock l with
  | None => holders l = []
  | Some promise => ∃ data, holders l = [(promise, data)]
  end.

(** Every suspended caller awaits the promise in [writeLock] or one that
    has been resolved. *)
Definition waitersCanWake (l : Locked) : Prop :=
  ∀ promise data, (promise, data) ∈ waiting l →
    promise ∈ resolved l ∨ writeLock l = Some promise.

Definition lockSound (l : Locked) : Prop :=
  lockMatchesHolder l ∧ waitersCanWake l.

Lemma tryAcquire_sound l data : lockSound l → lockSound (tryAcquire l data).
Proof.
  intros [Hlock Hwait]. unfold lockSound, lockMatchesHolder, waitersCanWake,
    tryAcquire in *.
  destruct (writeLock l) as [promise|] eqn:Hheld; simpl.
  - split; [done|]. intros p d [Hin|Hnew%list_elem_of_singleton]%elem_of_app.
    + by apply Hwait in Hin.
    + injection Hnew as -> ->. by right.
  - rewrite Hlock. split; [by eexists|].
    intros p d Hin. by destruct (Hwait p d Hin) as [?|Hnone]; [left|].
Qed.

Lemma lockedStep_sound l e : lockSound l → lockSound (lockedStep l e).
Proof.
  intros Hsound. destruct e as [data|k|j]; simpl.
  - by apply tryAcquire_sound.
  - destruct (waiting l !! k) as [[promise data]|] eqn:Hk; [|done].
    case_decide; [|done]. apply tryAcquire_sound.
    destruct Hsound as [Hlock Hwait]. split; [done|].
    intros p d Hin. apply (Hwait p d). simpl in Hin.
    by apply list_elem_of_delete_inv in Hin.
  - destruct (holders l !! j) as [[promise data]|] eqn:Hj; [|done].
    destruct Hsound as [Hlock Hwait].
    unfold lockSound, lockMatchesHolder, waitersCanWake in *. simpl.
    destruct (writeLock l) as [held|] eqn:Hheld.
    + destruct Hlock as [d Hholders]. rewrite Hholders in Hj |- *.
      destruct j; simplify_eq/=. split; [done|].
      intros p d' Hin. left. destruct (Hwait p d' Hin) as [?|[= ->]].
      * by apply elem_of_cons; right.
      * by apply elem_of_cons; left.
    + rewrite Hlock in Hj. by destruct j.
Qed.

Lemma locked_run_sound (events : list LockEvent) : ∀ l,
  lockSound l → lockSound (foldl lockedStep l events).
Proof.
  induction events as [|e rest IH]; intros l Hsound; [done|].
  simpl. by apply IH, lockedStep_sound.
Qed.

(** X17. With the recommended write lock, in every schedule: the lock is
    held exactly when one body is in [performSave], by that body's
    promise; and every suspended caller awaits either that promise or one
    already resolved, so once the lock is free every waiter can
    continue. *)
Theorem write_lock_never_strands_a_waiter (events : list LockEvent) :
  let l := foldl lockedStep newLocked events in
  lockMatchesHolder l ∧
  (∀ promise data, (promise, data) ∈ waiting l →
     promise ∈ resolved l ∨ writeLock l = Some promise) ∧
  (writeLock l = None →
     ∀ promise data, (promise, data) ∈ waiting l → promise ∈ resolved l).
Proof.
  assert (lockSound newLocked) as Hinit.
  { split; [done|]. intros p d Hin. by apply not_elem_of_nil in Hin. }
  destruct (locked_run_sound events newLocked Hinit) as [Hlock Hwait].
  simpl. split; [done|]. split; [done|].
  intros Hfree p d Hin. destruct (Hwait p d Hin) as [?|Hheld]; [done|].
  by rewrite Hfree in Hheld.
Qed.






End ProgressServiceProps.

(* ===================================================================== *)
(** * Properties of the two recommendations *)
(* ===================================================================== *)

Module RecommendationsProps.
Import Recommendations.

(** ** generateQuizSignature *)

(** X19. The signature of a quiz does not depend on the order of its
    questions: quiz results with the same question ids in any order, the
    same [correctAnswers] and the same [totalTime] get the same
    signature. *)
Theorem signature_ignores_question_order
    (q1 q2 : ResultsScreen.QuizResultsData) :
  ResultsScreen.detailId <$> ResultsScreen.questionDetails q1
    ≡ₚ ResultsScreen.detailId <$> ResultsScreen.questionDetails q2 →
  ResultsScreen.dataCorrectAnswers q1 = ResultsScreen.dataCorrectAnswers q2 →
  ResultsScreen.totalTime q1 = ResultsScreen.totalTime q2 →
  generateQuizSignature q1 = generateQuizSignature q2.
Proof.
  intros Hids Hcorrect Htime. unfold generateQuizSignature, sortedIds.
  rewrite Hcorrect, Htime. do 3 f_equal.
  apply (Sorted_unique String.le).
  - apply (Sorted_merge_sort String.le).
  - apply (Sorted_merge_sort String.le).
  - by rewrite !merge_sort_Permutation.
Qed.

Definition detailOf (questionId : string) (isCorrect : bool)
    : ResultsScreen.QuestionDetail :=
  {| ResultsScreen.detailId := questionId;
     ResultsScreen.detailDomain := "preparar-datos";
     ResultsScreen.detailLevel := "principiante";
     ResultsScreen.correct := isCorrect;
     ResultsScreen.detailTimeSpent := (30%N, 2) |}.

Definition quizOf (details : list ResultsScreen.QuestionDetail)
    : ResultsScreen.QuizResultsData :=
  {| ResultsScreen.dataTotalQuestions := length details;
     ResultsScreen.dataCorrectAnswers := 1;
     ResultsScreen.totalTime := 30;
     ResultsScreen.dataDomain := "all";
     ResultsScreen.questionDetails := details |}.

Lemma signature_ignores_question_order_witness :
  generateQuizSignature (quizOf [detailOf "q7" true; detailOf "q12" false])
  = generateQuizSignature (quizOf [detailOf "q12" false; detailOf "q7" true]).
Proof.
  apply signature_ignores_question_order; [|reflexivity..].
  simpl. apply Permutation_swap.
Defined.

(** ** The cleanup cadence *)

Lemma digitValue_char (x : N) :
  (x < 10)%N → digitValue 10 (pretty_N_char x) = Some x.
Proof.
  intros Hx.
  assert (x = 0 ∨ x = 1 ∨ x = 2 ∨ x = 3 ∨ x = 4 ∨ x = 5 ∨ x = 6 ∨ x = 7
          ∨ x = 8 ∨ x = 9)%N as Hcases by lia.
  repeat (destruct Hcases as [->|Hcases]; [reflexivity|]). by subst.
Qed.

Lemma digitsPrefix_go (x : N) : ∀ s, (0 < x)%N →
  ∃ k : N, ∀ acc,
    digitsPrefix 10 acc (pretty_N_go x s)
    = digitsPrefix 10 (Some (10 ^ k * default 0 acc + x)%N) s.
Proof.
  induction (N.lt_wf_0 x) as [x _ IH]; intros s Hpos.
  rewrite pretty_N_go_step by done.
  assert (x `mod` 10 < 10)%N as Hdigit by (apply N.mod_lt; lia).
  pose proof (N.div_mod x 10 ltac:(lia)) as Hsplit.
  destruct (decide (x `div` 10 = 0)%N) as [Hsmall|Hbig].
  - exists 1%N. intros acc. rewrite Hsmall, pretty_N_go_0. simpl.
    rewrite (digitValue_char _ Hdigit). do 2 f_equal. lia.
  - destruct (IH (x `div` 10)%N ltac:(apply N.div_lt; lia)
                (String (pretty_N_char (x `mod` 10)) s) ltac:(lia)) as [k Hk].
    exists (k + 1)%N. intros acc. rewrite Hk. simpl.
    rewrite (digitValue_char _ Hdigit). do 2 f_equal.
    rewrite N.pow_add_r. simpl. lia.
Qed.

Lemma leading_digit (x : N) : ∀ s, (0 < x)%N →
  ∃ (d : N) (rest : string),
    (1 ≤ d ≤ 9)%N ∧ pretty_N_go x s = String (pretty_N_char d) rest.
Proof.
  induction (N.lt_wf_0 x) as [x _ IH]; intros s Hpos.
  rewrite pretty_N_go_step by done.
  pose proof (N.div_mod x 10 ltac:(lia)) as Hsplit.
  assert (x `mod` 10 < 10)%N as Hdigit by (apply N.mod_lt; lia).
  destruct (decide (x `div` 10 = 0)%N) as [Hsmall|Hbig].
  - exists (x `mod` 10)%N, s. rewrite Hsmall, pretty_N_go_0. split; [lia|done].
  - apply IH; [apply N.div_lt; lia|lia].
Qed.

Lemma parseInt_leading (d : N) (rest : string) :
  (1 ≤ d ≤ 9)%N →
  parseInt (String (pretty_N_char d) rest)
  = Z.of_N <$> digitsPrefix 10 None (String (pretty_N_char d) rest).
Proof.
  intros Hd.
  assert (d = 1 ∨ d = 2 ∨ d = 3 ∨ d = 4 ∨ d = 5 ∨ d = 6 ∨ d = 7 ∨ d = 8
          ∨ d = 9)%N as Hcases by lia.
  repeat (destruct Hcases as [->|Hcases]; [by destruct rest|]).
  subst. by destruct rest.
Qed.

(** [parseInt(n.toString())] is [n]. *)
Lemma parseInt_pretty (n : N) : parseInt (pretty n) = Some (Z.of_N n).
Proof.
  unfold pretty, pretty_N. case_decide as Hzero; [by subst|].
  assert (0 < n)%N as Hpos by lia.
  destruct (leading_digit n EmptyString Hpos) as (d & rest & Hd & Hshape).
  destruct (digitsPrefix_go n EmptyString Hpos) as [k Hk].
  rewrite Hshape, parseInt_leading by done. rewrite <-Hshape, Hk. simpl.
  do 2 f_equal. lia.
Qed.

Lemma pretty_N_nonempty (n : N) : pretty n ≠ EmptyString.
Proof.
  unfold pretty, pretty_N. case_decide as Hzero; [done|].
  destruct (leading_digit n EmptyString ltac:(lia)) as (d & rest & _ & ->).
  done.
Qed.

(** X20. The constructor's cleanup cadence: once a cleanup has been
    stamped at time [last], a later construction runs [cleanup] exactly
    when more than seven days have passed since; and as long as it does
    not, the stamp stays.  (Times below [2^53], where JavaScript numbers
    are exact.) *)
Theorem cleanup_runs_after_seven_days (last now : N) :
  (last < 2 ^ 53)%N → (now < 2 ^ 53)%N →
  (cleanupDue (stampCleanup last) now = true ↔
   (Z.of_N now - Z.of_N last > SEVEN_DAYS)%Z) ∧
  ((Z.of_N now - Z.of_N last ≤ SEVEN_DAYS)%Z →
   construct (stampCleanup last) now = stampCleanup last).
Proof.
  intros _ _.
  assert (cleanupDue (stampCleanup last) now
          = bool_decide (Z.of_N now - Z.of_N last > SEVEN_DAYS)%Z) as Hdue.
  { unfold cleanupDue, stampCleanup.
    rewrite decide_False by apply pretty_N_nonempty.
    by rewrite parseInt_pretty. }
  split.
  - rewrite Hdue. apply bool_decide_eq_true.
  - intros Hearly. unfold construct. rewrite Hdue.
    rewrite bool_decide_eq_false_2 by lia. done.
Qed.

Lemma cleanup_runs_after_seven_days_witness :
  cleanupDue (stampCleanup 1700000000000) 1700604800001 = true.
Proof.
  apply (proj1 (cleanup_runs_after_seven_days 1700000000000 1700604800001
                  ltac:(done) ltac:(done))).
  unfold SEVEN_DAYS. lia.
Defined.

(** Without a stamp the first construction cleans up; a stamp that is not
    a number never lets a construction clean up again. *)
Example cleanup_edge_cases :
  cleanupDue None 0 = true ∧
  cleanupDue (Some EmptyString) 0 = true ∧
  parseInt "pending" = None ∧
  ∀ now, cleanupDue (Some "pending") now = false.
Proof. repeat split. Qed.

End RecommendationsProps.

(* ===================================================================== *)
(** * Properties of the schema migrator *)
(* ===================================================================== *)

Module MigratorProps.
Import Migrator.

Lemma applyChain_version transforms : ∀ (v : nat) fields s',
  applyChain transforms v fields = Some s' →
  version s' = v + length transforms.
Proof.
  induction transforms as [|transform rest IH]; intros v fields s' Hrun.
  - simpl in Hrun. injection Hrun as <-. simpl. lia.
  - simpl in Hrun. destruct (transform fields) as [fields'|]; [|done].
    simpl in Hrun. apply IH in Hrun. simpl. lia.
Qed.

Lemma migrate_version chain s s' :
  migrate chain s = Some s' → version s' = CURRENT_VERSION chain.
Proof.
  unfold migrate. case_decide as Hle; [|done]. intros Hrun.
  apply applyChain_version in Hrun. rewrite length_drop in Hrun.
  unfold CURRENT_VERSION in *. lia.
Qed.

Lemma migrate_current chain s :
  version s = CURRENT_VERSION chain → migrate chain s = Some s.
Proof.
  intros Hcur. unfold migrate. rewrite decide_True by lia.
  rewrite Hcur. unfold CURRENT_VERSION. rewrite drop_all. simpl.
  destruct s as [v fields]. simpl in *. by subst.
Qed.

(** C6. [migrate] is idempotent: migrating the result of a migration gives
    that result again (a failed migration stays failed), and a snapshot
    that already carries the current schema version is returned as it
    is. *)
Theorem migrate_idempotent chain (s : Snapshot) (fields : gmap string Z) :
  migrate chain s ≫= migrate chain = migrate chain s ∧
  migrate chain {| version := CURRENT_VERSION chain; payload := fields |}
  = Some {| version := CURRENT_VERSION chain; payload := fields |}.
Proof.
  split.
  - destruct (migrate chain s) as [s'|] eqn:Hrun; [|done].
    simpl. apply migrate_current. by apply migrate_version in Hrun.
  - by apply migrate_current.
Qed.

Example migrate_sample :
  migrate sampleChain {| version := 1; payload := {[ "totalPoints" := 100%Z ]} |}
  = Some {| version := 3;
            payload := {[ "totalPoints" := 100%Z; "quizzesTaken" := 0%Z ]} |}.
Proof. vm_compute. reflexivity. Qed.

Example migrate_sample_invalid :
  migrate sampleChain {| version := 0; payload := ∅ |} = None.
Proof. vm_compute. reflexivity. Qed.

End MigratorProps.
